(** * Corridor and marker engine of photo_corridor_generator.py

    A shallow embedding of
    [legacy/backend/kml-corridors/photo_corridor_generator.py].

    Numbers.  The program computes with Python floats.  The development
    works over the exact spherical model: a float is a real number, and
    [math.sin], [math.cos], [math.asin], [math.atan2], [math.sqrt],
    [math.radians], [math.degrees] and the float [%] are the real
    functions they approximate.  Rounding, signed zeros, NaN and the
    infinities are outside the model, with one exception: the initial
    [float('inf')] of [find_point_on_track] is kept as an explicit value.
    List positions ([enumerate], [range], the result of
    [find_point_on_track]) are natural numbers.

    Errors.  [math.sqrt] and [math.asin] raise outside their domains and
    are total here.  Lemma [haversine_in_domain] shows that the arguments
    met in [calculate_distance] stay inside for latitudes between -90 and
    90 degrees, lemma [triangle_sin_range] that the argument met in
    [project_coordinate] always does; there the total functions agree
    with the Python ones.  An [IndexError] of a list access is modelled
    by [None], and so is the [AttributeError] of a method call on
    [None].  On ASCII names [int] is applied to strings of decimal
    digits only and does not raise; the limit of the interpreter on the
    length of a numeral is outside the model.

    Printing is left out: the [print] calls of the program and the sums
    computed only to be printed have no part in the results. *)

From Stdlib Require Import String Ascii DecimalString.
From Stdlib Require Import Reals Lra Lia ZArith Bool List.
From Stdlib Require Import Permutation Sorted.
From Stdlib Require DecimalNat.
Import ListNotations.

Open Scope R_scope.

(** ** Geodesic math *)

(** A coordinate is the tuple [(lon, lat, alt)]. *)
Definition Coordinate : Type := (R * R * R)%type.

(** [math.radians] and [math.degrees]. *)
Definition radians (x : R) : R := x * PI / 180.
Definition degrees (x : R) : R := x * 180 / PI.

(** [math.atan2 y x] on the reals: the angle of the point [(x, y)], in
    (-pi, pi], and [0] at the origin. *)
Definition atan2 (y x : R) : R :=
  if Rlt_dec 0 x then atan (y / x)
  else if Rlt_dec x 0 then
         if Rle_dec 0 y then atan (y / x) + PI else atan (y / x) - PI
  else if Rlt_dec 0 y then PI / 2
  else if Rlt_dec y 0 then - (PI / 2)
  else 0.

(** The float [x % m] for a positive [m]: the result has the sign of [m],
    i.e. [x - m * floor (x / m)]. *)
Definition pymod (x m : R) : R := x - m * IZR (Int_part (x / m)).

(** [r = 6371000] and [R = 6371000] in the source. *)
Definition earth_radius : R := 6371000.

(** The haversine term [a] of [calculate_distance], on radians. *)
Definition haversine_a (lat1 lon1 lat2 lon2 : R) : R :=
  let dlat := lat2 - lat1 in
  let dlon := lon2 - lon1 in
  (sin (dlat / 2)) ^ 2 + cos lat1 * cos lat2 * (sin (dlon / 2)) ^ 2.

Definition calculate_distance (coord1 coord2 : Coordinate) : R :=
  let '(lon1, lat1, _) := coord1 in
  let '(lon2, lat2, _) := coord2 in
  let lat1 := radians lat1 in
  let lon1 := radians lon1 in
  let lat2 := radians lat2 in
  let lon2 := radians lon2 in
  let a := haversine_a lat1 lon1 lat2 lon2 in
  let c := 2 * asin (sqrt a) in
  let r := earth_radius in
  c * r.

Definition calculate_bearing (coord1 coord2 : Coordinate) : R :=
  let '(lon1, lat1, _) := coord1 in
  let '(lon2, lat2, _) := coord2 in
  let lat1 := radians lat1 in
  let lon1 := radians lon1 in
  let lat2 := radians lat2 in
  let lon2 := radians lon2 in
  let dlon := lon2 - lon1 in
  let y := sin dlon * cos lat2 in
  let x := cos lat1 * sin lat2 - sin lat1 * cos lat2 * cos dlon in
  let bearing := atan2 y x in
  let bearing := degrees bearing in
  pymod (bearing + 360) 360.

Definition project_coordinate (coord : Coordinate) (bearing_deg distance_m : R)
  : Coordinate :=
  let '(lon, lat, alt) := coord in
  let R := earth_radius in
  let lat1 := radians lat in
  let lon1 := radians lon in
  let bearing := radians bearing_deg in
  let lat2 := asin (sin lat1 * cos (distance_m / R)
                    + cos lat1 * sin (distance_m / R) * cos bearing) in
  let lon2 := lon1 + atan2 (sin bearing * sin (distance_m / R) * cos lat1)
                           (cos (distance_m / R) - sin lat1 * sin lat2) in
  (degrees lon2, degrees lat2, alt).

(** The latitude of a coordinate is a latitude: between the poles. *)
Definition valid_lat (c : Coordinate) : Prop :=
  let '(_, lat, _) := c in -90 <= lat <= 90.

(** ** Segments and the classifier *)

(** The dict built by [generate_corridors_kml] for every LineString:
    ['index'] is the position of the placemark in the document, ['name']
    the text of its name element, which is [None] for a name element
    without text. *)
Record Segment : Type := mkSegment {
  index : nat;
  name : option string;
  coordinates : list Coordinate;
  coord_count : nat
}.

Definition is_dashed_connector_line (segment : Segment) : bool :=
  let coords := coordinates segment in
  if negb (length coords =? 2)%nat then false
  else
    match coords with
    | c0 :: c1 :: _ =>
        let length := calculate_distance c0 c1 in
        if Rlt_dec length 500 then true else false
    | _ => false
    end.

(** ** The placemarks of the input document

    What [generate_corridors_kml] reads from a placemark: its name
    element, the coordinates parsed from its LineString and those parsed
    from its Point, each when present.  A name element has a text or
    none ([<name/>], whose [.text] is [None]).  Names are ASCII strings,
    and the coordinate texts are texts that [parse_coordinates]
    accepts. *)
Record Placemark : Type := mkPlacemark {
  pm_name_element : option (option string);
  pm_linestring : option (list Coordinate);
  pm_point : option (list Coordinate)
}.


(** [f"Unnamed_{i}"]. *)
Definition unnamed (i : nat) : string :=
  ("Unnamed_" ++ NilEmpty.string_of_uint (Nat.to_uint i))%string.

(** The extraction loop over [enumerate(placemarks)], from position [i]
    on: a LineString of three coordinates is a turning point marker and
    is skipped. *)
Fixpoint extract_segments (i : nat) (placemarks : list Placemark)
  : list Segment :=
  match placemarks with
  | [] => []
  | placemark :: rest =>
      let name :=
        match pm_name_element placemark with
        | Some text => text
        | None => Some (unnamed i)
        end in
      match pm_linestring placemark with
      | Some coords =>
          if (length coords =? 3)%nat then extract_segments (S i) rest
          else mkSegment i name coords (length coords)
               :: extract_segments (S i) rest
      | None => extract_segments (S i) rest
      end
  end.

Definition all_segments (placemarks : list Placemark) : list Segment :=
  extract_segments 0 placemarks.

Definition main_track_segments (placemarks : list Placemark)
  : list Segment :=
  filter (fun seg => negb (is_dashed_connector_line seg))
         (all_segments placemarks).

Definition dashed_connectors (placemarks : list Placemark) : list Segment :=
  filter is_dashed_connector_line (all_segments placemarks).

(** ** Python's stable sort by key

    [sorted(xs, key=f)] and [xs.sort(key=f)]: ascending by key, elements
    of equal key in their input order.  Insertion from the right, each
    element placed in front of the first one whose key is not smaller. *)
Section Sorted.

Context {A : Type} (key : A -> Z).

Fixpoint insert_by_key (x : A) (l : list A) : list A :=
  match l with
  | [] => [x]
  | h :: t =>
      if (key x <=? key h)%Z then x :: h :: t
      else h :: insert_by_key x t
  end.

Definition py_sorted (l : list A) : list A :=
  fold_right insert_by_key [] l.

Definition key_le (a b : A) : Prop := (key a <= key b)%Z.

End Sorted.

(** ** Track builder *)

(** [xs[-1]]: [None] stands for the [IndexError] of an empty list. *)
Definition last_item {A : Type} (xs : list A) : option A :=
  match xs with
  | [] => None
  | x :: rest => Some (last rest x)
  end.

(** The body of the loop of [build_detailed_continuous_track], at
    position [i] of the enumeration; the printing is left out. *)
Definition stitch_segment (detailed_track : list Coordinate) (i : nat)
    (segment : Segment) : option (list Coordinate) :=
  let coords := coordinates segment in
  if (i =? 0)%nat then Some (detailed_track ++ coords)
  else
    match last_item detailed_track with
    | None => None
    | Some last_point =>
        match coords with
        | [] => None
        | first_point :: rest =>
            let distance_to_start :=
              calculate_distance last_point first_point in
            if Rlt_dec distance_to_start 50
            then Some (detailed_track ++ rest)
            else Some (detailed_track ++ coords)
        end
    end.

Fixpoint stitch_from (i : nat) (sorted_segments : list Segment)
    (detailed_track : list Coordinate) : option (list Coordinate) :=
  match sorted_segments with
  | [] => Some detailed_track
  | segment :: rest =>
      match stitch_segment detailed_track i segment with
      | None => None
      | Some track' => stitch_from (S i) rest track'
      end
  end.

Definition segment_key (s : Segment) : Z := Z.of_nat (index s).

Definition build_detailed_continuous_track (main_segments : list Segment)
  : option (list Coordinate) :=
  match main_segments with
  | [] => Some []
  | _ =>
      let sorted_segments := py_sorted segment_key main_segments in
      stitch_from 0 sorted_segments []
  end.

(** ** Corridor projector *)

(** Filler of [nth] for the list accesses below; every access of the
    program that is modelled with it is in range. *)
Definition origin : Coordinate := (0, 0, 0).

(** The wrap of [diff = bearing_out - bearing_in] in the loop of
    [generate_corridor_for_continuous_track]. *)
Definition wrap_diff (diff : R) : R :=
  if Rgt_dec diff 180 then diff - 360
  else if Rlt_dec diff (-180) then diff + 360
  else diff.

(** The bearing chosen for track position [i]. *)
Definition track_bearing (track_coords : list Coordinate) (i : nat) : R :=
  let current_coord := nth i track_coords origin in
  if (i =? 0)%nat then
    let next_coord := nth (i + 1) track_coords origin in
    calculate_bearing current_coord next_coord
  else if (i =? length track_coords - 1)%nat then
    let prev_coord := nth (i - 1) track_coords origin in
    calculate_bearing prev_coord current_coord
  else
    let prev_coord := nth (i - 1) track_coords origin in
    let next_coord := nth (i + 1) track_coords origin in
    let bearing_in := calculate_bearing prev_coord current_coord in
    let bearing_out := calculate_bearing current_coord next_coord in
    let diff := wrap_diff (bearing_out - bearing_in) in
    pymod (bearing_in + diff / 2) 360.

(** One turn of the loop: the left and the right point of position [i]. *)
Definition corridor_points (track_coords : list Coordinate)
    (corridor_distance : R) (i : nat) : Coordinate * Coordinate :=
  let current_coord := nth i track_coords origin in
  let left_bearing := pymod (track_bearing track_coords i - 90) 360 in
  let right_bearing := pymod (track_bearing track_coords i + 90) 360 in
  (project_coordinate current_coord left_bearing corridor_distance,
   project_coordinate current_coord right_bearing corridor_distance).

Definition generate_corridor_for_continuous_track
    (track_coords : list Coordinate) (corridor_distance : R)
  : list Coordinate * list Coordinate :=
  if (length track_coords <? 2)%nat then ([], [])
  else
    let points :=
      map (corridor_points track_coords corridor_distance)
          (seq 0 (length track_coords)) in
    (map fst points, map snd points).

(** ** Reference-point resolver *)

(** The running minimum of [find_point_on_track] starts at
    [float('inf')]. *)
Inductive Distance : Type :=
| Finite (d : R)
| Infinity.

Definition below (distance : R) (min_distance : Distance) : bool :=
  match min_distance with
  | Infinity => true
  | Finite m => if Rlt_dec distance m then true else false
  end.

(** The loop of [find_point_on_track] from position [i] on. *)
Fixpoint closest_from (i : nat) (coords : list Coordinate)
    (target_point : Coordinate) (min_distance : Distance)
    (closest_index : nat) : nat :=
  match coords with
  | [] => closest_index
  | coord :: rest =>
      let distance := calculate_distance coord target_point in
      if below distance min_distance
      then closest_from (S i) rest target_point (Finite distance) i
      else closest_from (S i) rest target_point min_distance closest_index
  end.

Definition find_point_on_track (track_coords : list Coordinate)
    (target_point : Coordinate) : option nat :=
  match track_coords with
  | [] => None
  | _ => Some (closest_from 0 track_coords target_point Infinity 0)
  end.

(** ** Distance-along-track locator *)

(** The loop of [point_at_distance_along_track] over the leg starts
    [legs]; [None] when the loop ends without a [return]. *)
Fixpoint walk_legs (track_coords : list Coordinate) (legs : list nat)
    (remaining : R) : option (Coordinate * R) :=
  match legs with
  | [] => None
  | i :: rest =>
      let seg_start := nth i track_coords origin in
      let seg_end := nth (i + 1) track_coords origin in
      let seg_len := calculate_distance seg_start seg_end in
      if Rle_dec remaining seg_len then
        let bearing := calculate_bearing seg_start seg_end in
        let point := project_coordinate seg_start bearing remaining in
        Some (point, bearing)
      else walk_legs track_coords rest (remaining - seg_len)
  end.

(** [range(start, stop)]. *)
Definition range (start stop : nat) : list nat := seq start (stop - start).

(** [start_index] is a list position, the result of
    [find_point_on_track]. *)
Definition point_at_distance_along_track (track_coords : list Coordinate)
    (start_index : nat) (target_distance_m : R) : option (Coordinate * R) :=
  if (Z.of_nat start_index >=? Z.of_nat (length track_coords) - 1)%Z
  then None
  else
    match walk_legs track_coords
            (range start_index (length track_coords - 1))
            target_distance_m with
    | Some result => Some result
    | None =>
        let last_bearing :=
          if (2 <=? length track_coords)%nat
          then calculate_bearing
                 (nth (length track_coords - 2) track_coords origin)
                 (nth (length track_coords - 1) track_coords origin)
          else 0 in
        Some (nth (length track_coords - 1) track_coords origin, last_bearing)
    end.

Definition create_perpendicular_marker_at_point (point_on_track : Coordinate)
    (local_bearing_deg corridor_distance : R) : list Coordinate :=
  let left_bearing := pymod (local_bearing_deg - 90) 360 in
  let right_bearing := pymod (local_bearing_deg + 90) 360 in
  let left_point :=
    project_coordinate point_on_track left_bearing corridor_distance in
  let right_point :=
    project_coordinate point_on_track right_bearing corridor_distance in
  [left_point; right_point].

(** ** Reference points and markers in [generate_corridors_kml] *)

(** [str.isspace] on ASCII: tab to carriage return, the four separators
    and the space. *)
Definition is_whitespace (c : ascii) : bool :=
  let n := nat_of_ascii c in
  ((9 <=? n)%nat && (n <=? 13)%nat)
  || ((28 <=? n)%nat && (n <=? 31)%nat)
  || (n =? 32)%nat.

(** [s.split()]: the maximal runs without whitespace; [word] is the run
    being read. *)
Fixpoint split_words (s word : string) : list string :=
  match s with
  | EmptyString =>
      match word with
      | EmptyString => []
      | _ => [word]
      end
  | String c rest =>
      if is_whitespace c then
        match word with
        | EmptyString => split_words rest EmptyString
        | _ => word :: split_words rest EmptyString
        end
      else split_words rest (word ++ String c EmptyString)
  end.

Definition split (s : string) : list string := split_words s EmptyString.

Definition is_decimal_digit (c : ascii) : bool :=
  let n := nat_of_ascii c in (48 <=? n)%nat && (n <=? 57)%nat.

Fixpoint all_digits (s : string) : bool :=
  match s with
  | EmptyString => true
  | String c rest => is_decimal_digit c && all_digits rest
  end.

(** [s.isdigit()]: at least one character, all of them digits. *)
Definition isdigit (s : string) : bool :=
  match s with
  | EmptyString => false
  | _ => all_digits s
  end.

(** [int(s)] for a string of digits. *)
Fixpoint int_from (acc : Z) (s : string) : Z :=
  match s with
  | EmptyString => acc
  | String c rest =>
      int_from (10 * acc + (Z.of_nat (nat_of_ascii c) - 48))%Z rest
  end.

Definition int (s : string) : Z := int_from 0%Z s.

(** The sort key of [tp_coords]:
    [int(x[0].split()[-1]) if x[0].split()[-1].isdigit() else 0].
    Every name of [tp_coords] starts with ["TP "], so its [split()] is
    not empty (lemma [split_TP_nonempty]). *)
Definition tp_key (x : string * Coordinate) : Z :=
  match last_item (split (fst x)) with
  | Some suffix => if isdigit suffix then int suffix else 0%Z
  | None => 0%Z
  end.

(** The loop that finds SP and the turning points among the placemarks
    with a Point that has a coordinate.  The name of such a placemark is
    compared with "SP" and then asked [startswith("TP ")]: for a name
    element without text the name is [None], the comparison is false and
    the method call raises [AttributeError], for which [None] stands. *)
Fixpoint collect_reference_points (placemarks : list Placemark)
    (sp_coord : option Coordinate) (tp_coords : list (string * Coordinate))
  : option (option Coordinate * list (string * Coordinate)) :=
  match placemarks with
  | [] => Some (sp_coord, tp_coords)
  | placemark :: rest =>
      let name :=
        match pm_name_element placemark with
        | Some text => text
        | None => Some EmptyString
        end in
      match pm_point placemark with
      | Some (coord :: _) =>
          match name with
          | None => None
          | Some name =>
              if (name =? "SP")%string
              then collect_reference_points rest (Some coord) tp_coords
              else if prefix "TP " name
              then collect_reference_points rest sp_coord
                     (tp_coords ++ [(name, coord)])
              else collect_reference_points rest sp_coord tp_coords
          end
      | _ => collect_reference_points rest sp_coord tp_coords
      end
  end.

Definition nautical_mile : R := 1852.

(** Resolve a reference point and build the marker line at
    [target_distance] behind it; [None] when either step yields [None]
    and no placemark is added. *)
Definition marker_after (continuous_track : list Coordinate)
    (ref_coord : Coordinate) (target_distance corridor_distance : R)
  : option (list Coordinate) :=
  match find_point_on_track continuous_track ref_coord with
  | None => None
  | Some track_index =>
      match point_at_distance_along_track continuous_track track_index
              target_distance with
      | None => None
      | Some (exact_point, local_bearing) =>
          Some (create_perpendicular_marker_at_point exact_point
                  local_bearing corridor_distance)
      end
  end.

(** A marker placemark: its name and its line. *)
Definition Marker : Type := (string * list Coordinate)%type.

Definition tp_marker (continuous_track : list Coordinate)
    (corridor_distance : R) (tp : string * Coordinate) : list Marker :=
  let '(tp_name, tp_coord) := tp in
  match marker_after continuous_track tp_coord nautical_mile
          corridor_distance with
  | None => []
  | Some marker_line => [(("1NM after " ++ tp_name)%string, marker_line)]
  end.

(** The marker placemarks appended by [generate_corridors_kml], in the
    order they are appended: none when the track is empty, and none when
    the loop over the reference points raises, which happens before the
    first marker is built. *)
Definition distance_markers (continuous_track : list Coordinate)
    (placemarks : list Placemark) (corridor_distance : R)
  : list Marker :=
  match continuous_track with
  | [] => []
  | _ =>
      match collect_reference_points placemarks None [] with
      | None => []
      | Some (sp_coord, tp_coords) =>
          let tp_coords := py_sorted tp_key tp_coords in
          let sp_markers :=
            match sp_coord with
            | None => []
            | Some sp =>
                match marker_after continuous_track sp (5 * nautical_mile)
                        corridor_distance with
                | None => []
                | Some marker_line => [("5NM after SP"%string, marker_line)]
                end
            end in
          sp_markers
          ++ flat_map (tp_marker continuous_track corridor_distance)
                      tp_coords
      end
  end.





(** ** The index-based locator and marker

    [measure_distance_along_track] and [create_perpendicular_marker],
    the forerunners of the exact locator above. *)

(** The loop of [measure_distance_along_track] over the leg starts
    [legs]; [None] when the loop ends without a [return]. *)
Fixpoint measure_legs (track_coords : list Coordinate) (legs : list nat)
    (cumulative_distance target_distance : R) : option nat :=
  match legs with
  | [] => None
  | i :: rest =>
      let segment_distance :=
        calculate_distance (nth i track_coords origin)
                           (nth (i + 1) track_coords origin) in
      let cumulative_distance := cumulative_distance + segment_distance in
      if Rge_dec cumulative_distance target_distance
      then Some (i + 1)%nat
      else measure_legs track_coords rest cumulative_distance target_distance
  end.

Definition measure_distance_along_track (track_coords : list Coordinate)
    (start_index : nat) (target_distance : R) : option nat :=
  if (length track_coords <=? start_index)%nat then None
  else
    match measure_legs track_coords
            (range start_index (length track_coords - 1))
            0 target_distance with
    | Some reached => Some reached
    | None => Some (length track_coords - 1)%nat
    end.

Definition create_perpendicular_marker (track_coords : list Coordinate)
    (left_corridor right_corridor : list Coordinate) (track_index : nat)
  : list Coordinate :=
  if (length left_corridor <=? track_index)%nat
     || (length right_corridor <=? track_index)%nat
  then []
  else
    let left_point := nth track_index left_corridor origin in
    let right_point := nth track_index right_corridor origin in
    [left_point; right_point].

(** ** Vocabulary of the statements *)

(** A point at a chosen distance from [origin]: [d] metres due north. *)
Definition north_of_origin (d : R) : Coordinate :=
  project_coordinate origin 0 d.

(** [i] is the first position among the first [n] of [track] whose
    distance to [q] is minimal. *)
Definition first_minimum (track : list Coordinate) (q : Coordinate)
    (n i : nat) : Prop :=
  (i < n)%nat
  /\ (forall j, (j < n)%nat ->
        calculate_distance (nth i track origin) q
        <= calculate_distance (nth j track origin) q)
  /\ (forall j, (j < i)%nat ->
        calculate_distance (nth i track origin) q
        < calculate_distance (nth j track origin) q).

(** What the loop of [find_point_on_track] knows after the prefix [pre]:
    nothing yet, or the first minimum of the prefix and its distance. *)
Definition scanned (pre : list Coordinate) (q : Coordinate)
    (min_distance : Distance) (closest_index : nat) : Prop :=
  (pre = [] /\ min_distance = Infinity /\ closest_index = 0%nat)
  \/ (min_distance
      = Finite (calculate_distance (nth closest_index pre origin) q)
      /\ first_minimum pre q (length pre) closest_index).

(** The summed length of the legs that start at the positions [legs]. *)
Fixpoint legs_length (track : list Coordinate) (legs : list nat) : R :=
  match legs with
  | [] => 0
  | i :: rest =>
      calculate_distance (nth i track origin) (nth (i + 1) track origin)
      + legs_length track rest
  end.

(** What the locator hands back when the walk runs off the track: the
    last point, with the bearing of the last leg. *)
Definition last_point_and_bearing (track : list Coordinate)
  : Coordinate * R :=
  (nth (length track - 1) track origin,
   calculate_bearing (nth (length track - 2) track origin)
                     (nth (length track - 1) track origin)).

(** Every two consecutive points of [track] are at least 50 m apart. *)
Definition adjacent_points_apart (track : list Coordinate) : Prop :=
  forall i, (i + 1 < length track)%nat ->
            50 <= calculate_distance (nth i track origin)
                                     (nth (i + 1) track origin).


(** The spec's side of the comparison: an angle difference "normalized
    into (-180, 180]", the representative of [x] modulo 360 in that
    interval. *)
Definition normalize_half_open (x : R) : R := 180 - pymod (180 - x) 360.

(** The spec's side of the comparison: the heading at an interior
    point, "incoming + signed_diff/2" modulo 360 with
    "signed_diff = outgoing - incoming normalized into (-180, 180]". *)
Definition bisector_heading (incoming outgoing : R) : R :=
  pymod (incoming + normalize_half_open (outgoing - incoming) / 2) 360.

(** The point one degree north of [origin] on the prime meridian. *)
Definition one_degree_north : Coordinate := (0, 1, 0).

(** A track that flies from there south to [origin] and straight back. *)
Definition there_and_back : list Coordinate :=
  [one_degree_north; origin; one_degree_north].

(** A track that runs north along one meridian: every point has a
    latitude, and each next point has the longitude of the one before
    and a greater latitude. *)
Definition northbound (track : list Coordinate) : Prop :=
  Forall valid_lat track
  /\ forall i, (i + 1 < length track)%nat ->
       fst (fst (nth (i + 1) track origin)) = fst (fst (nth i track origin))
       /\ snd (fst (nth i track origin))
          < snd (fst (nth (i + 1) track origin)).

(** The altitude of a coordinate. *)
Definition altitude (c : Coordinate) : R := snd c.


(** 1 when a start point has been found, 0 otherwise. *)
Definition found_sp (sp_coord : option Coordinate) : nat :=
  match sp_coord with
  | Some _ => 1
  | None => 0
  end.

(** The number of coordinates of all the segments together. *)
Definition total_coordinates (segments : list Segment) : nat :=
  list_sum (map (fun s => length (coordinates s)) segments).

(** A segment without a coordinate. *)
Definition no_coordinates (s : Segment) : Prop := coordinates s = [].


(** What a segment contributes to the track: all its coordinates, or all
    but the first. *)
Definition stitched_piece (s : Segment) (piece : list Coordinate) : Prop :=
  piece = coordinates s \/ piece = tl (coordinates s).



(** ** Facts of the geodesic math *)

Lemma radians_degrees (x : R) : radians (degrees x) = x.
Proof.
  unfold radians, degrees. field. apply PI_neq0.
Qed.

Lemma sin_sqr_half (x : R) : (sin (x / 2)) ^ 2 = (1 - cos x) / 2.
Proof.
  replace x with (2 * (x / 2)) at 2 by field.
  rewrite cos_2a_sin. field.
Qed.

Lemma sin_cos_sqr (x : R) : (sin x) ^ 2 + (cos x) ^ 2 = 1.
Proof.
  pose proof (sin2_cos2 x) as H. unfold Rsqr in H. lra.
Qed.

(** [atan2 y x] is the angle of [(x, y)]: scaled by the length [r] of the
    vector, its cosine gives back [x]. *)
Lemma atan2_cos (y x r : R) :
  0 <= r -> x ^ 2 + y ^ 2 = r ^ 2 -> r * cos (atan2 y x) = x.
Proof.
  intros Hr Hxy.
  assert (Hcos : forall t, cos (atan t) = 1 / sqrt (1 + t ^ 2)).
  { intros t. rewrite cos_atan. unfold Rsqr. do 3 f_equal. ring. }
  assert (Hs : 0 < x \/ x < 0 ->
               sqrt (1 + (y / x) ^ 2) = r / Rabs x).
  { intros Hx.
    assert (Hax : 0 < Rabs x) by (apply Rabs_pos_lt; lra).
    replace (1 + (y / x) ^ 2) with ((r / Rabs x) ^ 2).
    - replace ((r / Rabs x) ^ 2) with (Rsqr (r / Rabs x))
        by (unfold Rsqr; ring).
      apply sqrt_Rsqr. apply Rmult_le_pos; [lra|].
      left. now apply Rinv_0_lt_compat.
    - replace ((r / Rabs x) ^ 2) with (r ^ 2 / (Rabs x) ^ 2) by (field; lra).
      replace ((Rabs x) ^ 2) with (x ^ 2).
      + rewrite <- Hxy. field. lra.
      + rewrite <- (Rabs_pos_eq (x ^ 2)) by (apply pow2_ge_0).
        rewrite <- RPow_abs. reflexivity. }
  assert (Hr0 : (0 < x \/ x < 0) -> 0 < r).
  { intros Hx. destruct Hr as [Hr | Hr]; [assumption|].
    subst r. assert (0 < x ^ 2) by nra. nra. }
  unfold atan2.
  destruct (Rlt_dec 0 x) as [Hx | Hx].
  - rewrite Hcos, Hs by auto. specialize (Hr0 (or_introl Hx)).
    rewrite Rabs_pos_eq by lra. field. lra.
  - destruct (Rlt_dec x 0) as [Hx' | Hx'].
    + specialize (Hr0 (or_intror Hx')).
      assert (Hneg : r * - cos (atan (y / x)) = x).
      { rewrite Hcos, Hs by auto. rewrite Rabs_left by lra. field. lra. }
      destruct (Rle_dec 0 y).
      * rewrite neg_cos. exact Hneg.
      * unfold Rminus. rewrite <- (cos_neg (atan (y / x) + - PI)).
        replace (- (atan (y / x) + - PI)) with (- atan (y / x) + PI) by ring.
        rewrite neg_cos, cos_neg. exact Hneg.
    + assert (x = 0) by lra. subst x.
      destruct (Rlt_dec 0 y).
      * rewrite cos_PI2. ring.
      * destruct (Rlt_dec y 0).
        -- rewrite cos_neg, cos_PI2. ring.
        -- assert (y = 0) by lra. subst y. rewrite cos_0. nra.
Qed.

(** Three unit vectors [(sp, cp)], [(sd, cd)], [(st, ct)] combine into a
    unit vector of the space. *)
Lemma unit_vector_identity (sp cp sd cd st ct : R) :
  sp ^ 2 + cp ^ 2 = 1 -> sd ^ 2 + cd ^ 2 = 1 -> st ^ 2 + ct ^ 2 = 1 ->
  (cp * cd - sp * sd * ct) ^ 2 + (st * sd) ^ 2 + (sp * cd + cp * sd * ct) ^ 2
  = 1.
Proof.
  intros Hp Hd Ht.
  replace ((cp * cd - sp * sd * ct) ^ 2 + (st * sd) ^ 2
           + (sp * cd + cp * sd * ct) ^ 2)
    with ((sp ^ 2 + cp ^ 2) * (cd ^ 2 + sd ^ 2 * ct ^ 2) + st ^ 2 * sd ^ 2)
    by ring.
  rewrite Hp.
  replace (1 * (cd ^ 2 + sd ^ 2 * ct ^ 2) + st ^ 2 * sd ^ 2)
    with (cd ^ 2 + sd ^ 2 * (st ^ 2 + ct ^ 2)) by ring.
  rewrite Ht. lra.
Qed.

(** The spherical triangle behind [project_coordinate]: pole, origin at
    latitude [phi], and the point reached after the arc [delta] on the
    bearing [theta]. *)
Section SphericalTriangle.

Variables phi delta theta : R.

Let s := sin phi * cos delta + cos phi * sin delta * cos theta.
Let u := cos phi * cos delta - sin phi * sin delta * cos theta.
Let v := sin theta * sin delta.

Lemma triangle_unit : u ^ 2 + v ^ 2 + s ^ 2 = 1.
Proof.
  unfold u, v, s.
  apply unit_vector_identity; apply sin_cos_sqr.
Qed.

(** The argument of the [math.asin] of [project_coordinate] is a sine. *)
Lemma triangle_sin_range : -1 <= s <= 1.
Proof.
  pose proof triangle_unit as H.
  pose proof (pow2_ge_0 u). pose proof (pow2_ge_0 v).
  assert (Hs : s ^ 2 <= 1) by lra.
  split; nra.
Qed.

Lemma triangle_cos_lat : cos (asin s) ^ 2 = u ^ 2 + v ^ 2.
Proof.
  pose proof triangle_unit as H.
  pose proof (sin_cos_sqr (asin s)) as Hsc.
  rewrite (sin_asin s triangle_sin_range) in Hsc. lra.
Qed.

Lemma triangle_cos_lat_nonneg : 0 <= cos (asin s).
Proof.
  apply cos_ge_0; apply asin_bound.
Qed.

(** Law of cosines on the triangle, for an origin between the poles:
    the haversine term of origin and projected point is that of the
    arc travelled. *)
Lemma triangle_haversine (lambda : R) :
  0 <= cos phi ->
  haversine_a phi lambda (asin s)
    (lambda + atan2 (sin theta * sin delta * cos phi)
                    (cos delta - sin phi * sin (asin s)))
  = (sin (delta / 2)) ^ 2.
Proof.
  intros Hc.
  unfold haversine_a. cbv zeta.
  replace (lambda + atan2 (sin theta * sin delta * cos phi)
                      (cos delta - sin phi * sin (asin s)) - lambda)
    with (atan2 (sin theta * sin delta * cos phi)
                (cos delta - sin phi * sin (asin s))) by ring.
  rewrite !sin_sqr_half, cos_minus.
  rewrite (sin_asin s triangle_sin_range).
  set (x := cos delta - sin phi * s).
  set (y := sin theta * sin delta * cos phi).
  assert (Hx : x = cos phi * u).
  { pose proof (sin_cos_sqr phi) as Hp.
    assert (Hd : x - cos phi * u
                 = cos delta * (1 - ((sin phi) ^ 2 + (cos phi) ^ 2)))
      by (unfold x, u, s; ring).
    rewrite Hp in Hd. lra. }
  assert (Hy : y = cos phi * v) by (unfold y, v; ring).
  assert (Hk : cos phi * cos (asin s) * cos (atan2 y x) = x).
  { apply atan2_cos.
    - apply Rmult_le_pos; [assumption | apply triangle_cos_lat_nonneg].
    - rewrite Hx, Hy.
      replace ((cos phi * cos (asin s)) ^ 2)
        with (cos phi ^ 2 * cos (asin s) ^ 2) by ring.
      rewrite triangle_cos_lat. ring. }
  replace ((1 - (cos (asin s) * cos phi + s * sin phi)) / 2
           + cos phi * cos (asin s) * ((1 - cos (atan2 y x)) / 2))
    with ((1 - s * sin phi - cos phi * cos (asin s) * cos (atan2 y x)) / 2)
    by field.
  rewrite Hk. unfold x. field.
Qed.

End SphericalTriangle.

Lemma asin_nonneg (x : R) : 0 <= x -> 0 <= asin x.
Proof.
  intros Hx. pose proof PI_RGT_0 as Hpi.
  unfold asin.
  destruct (Rle_dec x (-1)); [lra|].
  destruct (Rle_dec 1 x); [lra|].
  destruct Hx as [Hx | <-].
  - rewrite <- atan_0. left. apply atan_increasing.
    apply Rdiv_lt_0_compat; [assumption|].
    apply sqrt_lt_R0. unfold Rsqr. nra.
  - unfold Rdiv. rewrite Rmult_0_l, atan_0. lra.
Qed.

Lemma earth_radius_pos : 0 < earth_radius.
Proof. unfold earth_radius. lra. Qed.

(** A distance is never negative and never more than half a great circle. *)
Lemma calculate_distance_nonneg (a b : Coordinate) :
  0 <= calculate_distance a b.
Proof.
  destruct a as [[lon1 lat1] alt1], b as [[lon2 lat2] alt2].
  unfold calculate_distance.
  apply Rmult_le_pos; [|left; apply earth_radius_pos].
  apply Rmult_le_pos; [lra|].
  apply asin_nonneg, sqrt_pos.
Qed.

Lemma calculate_distance_upper (a b : Coordinate) :
  calculate_distance a b <= PI * earth_radius.
Proof.
  destruct a as [[lon1 lat1] alt1], b as [[lon2 lat2] alt2].
  unfold calculate_distance.
  apply Rmult_le_compat_r; [left; apply earth_radius_pos|].
  match goal with |- 2 * asin ?t <= _ => pose proof (asin_bound t) end.
  lra.
Qed.

(** The haversine term is in the domain of [math.sqrt] and its root in
    that of [math.asin], for latitudes between the poles. *)
Lemma haversine_in_domain (lat1 lon1 lat2 lon2 : R) :
  0 <= cos lat1 -> 0 <= cos lat2 ->
  0 <= haversine_a lat1 lon1 lat2 lon2 <= 1.
Proof.
  intros H1 H2. unfold haversine_a. cbv zeta.
  pose proof (pow2_ge_0 (sin ((lat2 - lat1) / 2))) as Ha.
  pose proof (pow2_ge_0 (sin ((lon2 - lon1) / 2))) as Hb.
  assert (Hb1 : sin ((lon2 - lon1) / 2) ^ 2 <= 1).
  { pose proof (sin_cos_sqr ((lon2 - lon1) / 2)).
    pose proof (pow2_ge_0 (cos ((lon2 - lon1) / 2))). lra. }
  assert (Hc : 0 <= cos lat1 * cos lat2) by (now apply Rmult_le_pos).
  split.
  - assert (0 <= cos lat1 * cos lat2 * sin ((lon2 - lon1) / 2) ^ 2)
      by (now apply Rmult_le_pos).
    lra.
  - assert (Hm : cos lat1 * cos lat2 * sin ((lon2 - lon1) / 2) ^ 2
                 <= cos lat1 * cos lat2) by nra.
    rewrite sin_sqr_half, cos_minus.
    pose proof (COS_bound (lat1 + lat2)) as [_ Hhi].
    rewrite cos_plus in Hhi. lra.
Qed.

Lemma cos_radians_nonneg (lat : R) :
  -90 <= lat <= 90 -> 0 <= cos (radians lat).
Proof.
  intros H. pose proof PI_RGT_0 as Hpi.
  unfold radians. apply cos_ge_0; nra.
Qed.

(** Projecting by [d] lands at the great-circle distance [|d|], as long as
    [|d|] is at most half a great circle. *)
Lemma distance_project_abs (p : Coordinate) (b d : R) :
  valid_lat p -> Rabs d <= PI * earth_radius ->
  calculate_distance p (project_coordinate p b d) = Rabs d.
Proof.
  destruct p as [[lon lat] alt]. unfold valid_lat. intros Hlat Hd.
  pose proof earth_radius_pos as HR. pose proof PI_RGT_0 as Hpi.
  unfold calculate_distance, project_coordinate. cbv zeta.
  rewrite !radians_degrees.
  rewrite triangle_haversine by (now apply cos_radians_nonneg).
  replace (sin (d / earth_radius / 2) ^ 2)
    with (Rsqr (sin (d / earth_radius / 2))) by (unfold Rsqr; ring).
  rewrite sqrt_Rsqr_abs.
  assert (Hbound : Rabs (d / earth_radius) <= PI).
  { unfold Rdiv. rewrite Rabs_mult, (Rabs_pos_eq (/ earth_radius)).
    - apply Rmult_le_reg_r with earth_radius; [assumption|].
      rewrite Rmult_assoc, Rinv_l by lra. lra.
    - left. now apply Rinv_0_lt_compat. }
  assert (Habs : Rabs d = Rabs (d / earth_radius) * earth_radius).
  { unfold Rdiv. rewrite Rabs_mult, (Rabs_pos_eq (/ earth_radius)).
    - field. lra.
    - left. now apply Rinv_0_lt_compat. }
  rewrite Habs. f_equal.
  set (dl := d / earth_radius) in *.
  destruct (Rle_dec 0 dl) as [Hpos | Hneg].
  - rewrite (Rabs_pos_eq dl) in * by assumption.
    rewrite Rabs_pos_eq by (apply sin_ge_0; lra).
    rewrite asin_sin by lra. field.
  - rewrite (Rabs_left dl) in * by lra.
    rewrite Rabs_left.
    + rewrite <- sin_neg, asin_sin by lra. field.
    + replace (dl / 2) with (- (- dl / 2)) by field.
      rewrite sin_neg.
      assert (0 < sin (- dl / 2)) by (apply sin_gt_0; lra).
      lra.
Qed.

Lemma distance_project (p : Coordinate) (b d : R) :
  valid_lat p -> 0 <= d <= PI * earth_radius ->
  calculate_distance p (project_coordinate p b d) = d.
Proof.
  intros Hp Hd.
  rewrite distance_project_abs by (try rewrite Rabs_pos_eq; tauto).
  apply Rabs_pos_eq. tauto.
Qed.

Lemma calculate_distance_same (p : Coordinate) : calculate_distance p p = 0.
Proof.
  destruct p as [[lon lat] alt].
  unfold calculate_distance, haversine_a. cbv zeta.
  replace ((radians lat - radians lat) / 2) with 0 by field.
  replace ((radians lon - radians lon) / 2) with 0 by field.
  rewrite sin_0.
  replace (0 ^ 2 + cos (radians lat) * cos (radians lat) * 0 ^ 2) with 0
    by ring.
  rewrite sqrt_0, asin_0. ring.
Qed.

(** The float [%] by a positive modulus lands in [[0, m)], is the identity
    there, and forgets whole multiples of [m]. *)
Lemma pymod_range (x m : R) : 0 < m -> 0 <= pymod x m < m.
Proof.
  intros Hm. unfold pymod.
  destruct (base_Int_part (x / m)) as [Hlo Hhi].
  assert (Hx : x = m * (x / m)) by (field; lra).
  split; nra.
Qed.

Lemma pymod_shift (x m : R) (k : Z) :
  0 < m -> 0 <= x - m * IZR k < m -> pymod x m = x - m * IZR k.
Proof.
  intros Hm Hk. unfold pymod. do 3 f_equal. symmetry.
  apply Int_part_spec.
  assert (Hx : x / m = (x - m * IZR k) / m + IZR k) by (field; lra).
  assert (Hq : 0 <= (x - m * IZR k) / m < 1).
  { split.
    - apply Rmult_le_pos; [tauto | left; now apply Rinv_0_lt_compat].
    - apply Rmult_lt_reg_r with m; [assumption|].
      unfold Rdiv. rewrite Rmult_assoc, Rinv_l by lra. lra. }
  lra.
Qed.

Lemma pymod_small (x m : R) : 0 <= x < m -> pymod x m = x.
Proof.
  intros H. rewrite (pymod_shift x m 0); simpl; try lra.
Qed.

Lemma calculate_bearing_range (a b : Coordinate) :
  0 <= calculate_bearing a b < 360.
Proof.
  destruct a as [[lon1 lat1] alt1], b as [[lon2 lat2] alt2].
  unfold calculate_bearing. apply pymod_range. lra.
Qed.


(** ** Python's stable sort *)

Section SortedFacts.

Context {A : Type} (key : A -> Z).

Lemma insert_by_key_perm (x : A) (l : list A) :
  Permutation (x :: l) (insert_by_key key x l).
Proof.
  induction l as [|h t IH]; simpl; [reflexivity|].
  destruct (key x <=? key h)%Z; [reflexivity|].
  rewrite perm_swap. now constructor.
Qed.

Lemma py_sorted_perm (l : list A) : Permutation l (py_sorted key l).
Proof.
  induction l as [|x l IH]; simpl; [constructor|].
  rewrite <- insert_by_key_perm. now constructor.
Qed.

Lemma insert_by_key_sorted (x : A) (l : list A) :
  StronglySorted (key_le key) l ->
  StronglySorted (key_le key) (insert_by_key key x l).
Proof.
  induction 1 as [|h t Hs IH Hall]; simpl.
  - repeat constructor.
  - destruct (Z.leb_spec (key x) (key h)) as [Hle | Hgt].
    + constructor; [now constructor|].
      constructor; [exact Hle|].
      eapply Forall_impl; [|exact Hall].
      unfold key_le. intros; lia.
    + constructor; [exact IH|].
      eapply Permutation_Forall; [apply insert_by_key_perm|].
      constructor; [unfold key_le; lia | exact Hall].
Qed.

Lemma py_sorted_sorted (l : list A) :
  StronglySorted (key_le key) (py_sorted key l).
Proof.
  induction l as [|x l IH]; simpl; [constructor|].
  now apply insert_by_key_sorted.
Qed.

(** Stability: the elements of any one key keep their input order. *)
Lemma insert_by_key_stable (k : Z) (x : A) (l : list A) :
  filter (fun y => (key y =? k)%Z) (insert_by_key key x l)
  = filter (fun y => (key y =? k)%Z) (x :: l).
Proof.
  induction l as [|h t IH]; [reflexivity|].
  simpl insert_by_key.
  destruct (Z.leb_spec (key x) (key h)) as [Hle | Hgt]; [reflexivity|].
  simpl in *. rewrite IH.
  destruct (Z.eqb_spec (key x) k), (Z.eqb_spec (key h) k);
    try reflexivity; lia.
Qed.

Lemma py_sorted_stable (k : Z) (l : list A) :
  filter (fun y => (key y =? k)%Z) (py_sorted key l)
  = filter (fun y => (key y =? k)%Z) l.
Proof.
  induction l as [|x l IH]; [reflexivity|].
  simpl py_sorted. rewrite insert_by_key_stable. simpl. now rewrite IH.
Qed.

Lemma py_sorted_of_sorted (l : list A) :
  StronglySorted (key_le key) l -> py_sorted key l = l.
Proof.
  induction 1 as [|h t Hs IH Hall]; [reflexivity|].
  simpl. rewrite IH. destruct t as [|h' t']; [reflexivity|].
  simpl. inversion Hall as [|? ? Hh _]; subst. unfold key_le in Hh.
  destruct (Z.leb_spec (key h) (key h')); [reflexivity | lia].
Qed.


(** Distinct keys leave one sorted arrangement only. *)
Lemma sorted_perm_unique (l1 l2 : list A) :
  StronglySorted (key_le key) l1 -> StronglySorted (key_le key) l2 ->
  Permutation l1 l2 -> NoDup (map key l1) -> l1 = l2.
Proof.
  intros Hs1. revert l2.
  induction Hs1 as [|a t1 Hs1 IH Hall1]; intros l2 Hs2 Hperm Hnd.
  - apply Permutation_nil in Hperm. now subst.
  - destruct Hs2 as [|b t2 Hs2 Hall2].
    + apply Permutation_sym, Permutation_nil in Hperm. discriminate.
    + rewrite Forall_forall in Hall1, Hall2.
      inversion Hnd as [|? ? Hnotin Hnd']; subst.
      assert (Hab : a = b).
      { assert (Hb : In b (a :: t1))
          by (eapply Permutation_in;
              [apply Permutation_sym; exact Hperm | now left]).
        assert (Ha : In a (b :: t2))
          by (eapply Permutation_in; [exact Hperm | now left]).
        destruct Hb as [Hb | Hb]; [assumption|].
        destruct Ha as [Ha | Ha]; [now symmetry|].
        exfalso. apply Hnotin.
        assert (key a = key b).
        { apply Hall1 in Hb. apply Hall2 in Ha. unfold key_le in *. lia. }
        rewrite H. now apply in_map. }
      subst b. f_equal.
      apply IH; [assumption | | assumption].
      now apply Permutation_cons_inv in Hperm.
Qed.

Lemma py_sorted_perm_invariant (l1 l2 : list A) :
  Permutation l1 l2 -> NoDup (map key l1) ->
  py_sorted key l1 = py_sorted key l2.
Proof.
  intros Hperm Hnd.
  apply sorted_perm_unique; try apply py_sorted_sorted.
  - rewrite <- !py_sorted_perm. exact Hperm.
  - eapply Permutation_NoDup; [|exact Hnd].
    apply Permutation_map, py_sorted_perm.
Qed.

End SortedFacts.

(** ** The segment classifier *)

Lemma calculate_distance_symmetric_aux (a b : Coordinate) :
  calculate_distance a b = calculate_distance b a.
Proof.
  destruct a as [[lon1 lat1] alt1], b as [[lon2 lat2] alt2].
  unfold calculate_distance, haversine_a. cbv zeta.
  replace ((radians lat1 - radians lat2) / 2)
    with (- ((radians lat2 - radians lat1) / 2)) by field.
  replace ((radians lon1 - radians lon2) / 2)
    with (- ((radians lon2 - radians lon1) / 2)) by field.
  rewrite !sin_neg. do 4 f_equal. ring.
Qed.


Lemma half_circle_large : 3 * earth_radius < PI * earth_radius.
Proof.
  pose proof PI2_3_2. pose proof earth_radius_pos.
  apply Rmult_lt_compat_r; lra.
Qed.

Lemma valid_lat_origin : valid_lat origin.
Proof. unfold valid_lat, origin. lra. Qed.

Lemma distance_north_of_origin (d : R) :
  0 <= d <= 1000000 -> calculate_distance origin (north_of_origin d) = d.
Proof.
  intros Hd. apply distance_project; [apply valid_lat_origin|].
  pose proof half_circle_large. unfold earth_radius in *. lra.
Qed.

Lemma is_dashed_two_points (segment : Segment) (c0 c1 : Coordinate) :
  coordinates segment = [c0; c1] ->
  is_dashed_connector_line segment
  = if Rlt_dec (calculate_distance c0 c1) 500 then true else false.
Proof.
  intros H. unfold is_dashed_connector_line. rewrite H. reflexivity.
Qed.

Lemma is_dashed_other_count (segment : Segment) :
  length (coordinates segment) <> 2%nat ->
  is_dashed_connector_line segment = false.
Proof.
  intros H. unfold is_dashed_connector_line.
  apply Nat.eqb_neq in H. rewrite H. reflexivity.
Qed.

(** C3: a segment is classified as a dashed connector exactly when it has
    two coordinates that are strictly less than 500 m apart; two points
    at exactly 500 m are not a dashed connector, two points at 499 m
    are, and a segment with a coordinate count other than 2 never is. *)
Theorem dashed_connector_classifier :
  (forall segment,
      is_dashed_connector_line segment = true <->
      length (coordinates segment) = 2%nat /\
      exists c0 c1, coordinates segment = [c0; c1] /\
                    calculate_distance c0 c1 < 500)
  /\ (forall segment c0 c1,
         coordinates segment = [c0; c1] ->
         calculate_distance c0 c1 = 500 ->
         is_dashed_connector_line segment = false)
  /\ (forall segment c0 c1,
         coordinates segment = [c0; c1] ->
         calculate_distance c0 c1 = 499 ->
         is_dashed_connector_line segment = true)
  /\ (forall segment,
         length (coordinates segment) <> 2%nat ->
         is_dashed_connector_line segment = false).
Proof.
  repeat split.
  - destruct (Nat.eq_dec (length (coordinates segment)) 2) as [E | E];
      [exact E|].
    rewrite is_dashed_other_count in H by assumption. discriminate.
  - destruct (coordinates segment) as [|c0 [|c1 [|c2 rest]]] eqn:E;
      try (rewrite is_dashed_other_count in H by (rewrite E; simpl; lia);
           discriminate).
    exists c0, c1. split; [reflexivity|].
    rewrite (is_dashed_two_points _ _ _ E) in H.
    destruct (Rlt_dec (calculate_distance c0 c1) 500);
      [assumption | discriminate].
  - intros [_ (c0 & c1 & E & Hd)].
    rewrite (is_dashed_two_points _ _ _ E).
    destruct (Rlt_dec (calculate_distance c0 c1) 500);
      [reflexivity | contradiction].
  - intros segment c0 c1 E Hd. rewrite (is_dashed_two_points _ _ _ E), Hd.
    destruct (Rlt_dec 500 500); [lra|reflexivity].
  - intros segment c0 c1 E Hd. rewrite (is_dashed_two_points _ _ _ E), Hd.
    destruct (Rlt_dec 499 500); [reflexivity|lra].
  - apply is_dashed_other_count.
Qed.

Lemma dashed_connector_classifier_witness :
  is_dashed_connector_line
    (mkSegment 4 (Some "leg"%string) [origin; north_of_origin 500] 2) = false
  /\ is_dashed_connector_line
       (mkSegment 5 (Some "connector"%string) [origin; north_of_origin 499] 2) = true
  /\ is_dashed_connector_line
       (mkSegment 6 (Some "leg"%string) [origin; origin; origin; origin] 4) = false.
Proof.
  destruct dashed_connector_classifier as (_ & H500 & H499 & Hcount).
  split; [|split].
  - apply H500 with (c0 := origin) (c1 := north_of_origin 500);
      [reflexivity|].
    apply distance_north_of_origin. lra.
  - apply H499 with (c0 := origin) (c1 := north_of_origin 499);
      [reflexivity|].
    apply distance_north_of_origin. lra.
  - apply Hcount. simpl. lia.
Defined.

(** ** The reference-point resolver *)

Lemma first_minimum_extend (pre rest : list Coordinate) (q : Coordinate)
    (i : nat) :
  first_minimum pre q (length pre) i ->
  first_minimum (pre ++ rest) q (length pre) i.
Proof.
  intros (Hi & Hmin & Hfirst). split; [assumption|].
  split; intros j Hj.
  - rewrite !app_nth1 by lia. now apply Hmin.
  - rewrite !app_nth1 by lia. now apply Hfirst.
Qed.

Lemma scanned_step (pre : list Coordinate) (c q : Coordinate)
    (m : Distance) (best : nat) :
  scanned pre q m best ->
  let d := calculate_distance c q in
  scanned (pre ++ [c]) q
    (if below d m then Finite d else m)
    (if below d m then length pre else best).
Proof.
  intros Hs d. subst d. right.
  assert (Hnew : nth (length pre) (pre ++ [c]) origin = c).
  { rewrite app_nth2 by lia. now rewrite Nat.sub_diag. }
  assert (Hold : forall j, (j < length pre)%nat ->
                           nth j (pre ++ [c]) origin = nth j pre origin).
  { intros j Hj. now apply app_nth1. }
  unfold first_minimum. rewrite length_app. simpl length.
  destruct Hs as [(-> & -> & ->) | (-> & Hi & Hmin & Hfirst)].
  - simpl. split; [reflexivity|]. repeat split; try lia.
    intros j Hj. assert (j = 0)%nat by lia. subst j. apply Rle_refl.
  - unfold below.
    destruct (Rlt_dec (calculate_distance c q)
                      (calculate_distance (nth best pre origin) q))
      as [Hlt | Hge].
    + rewrite Hnew. split; [reflexivity|]. repeat split; try lia.
      * intros j Hj. destruct (Nat.eq_dec j (length pre)) as [-> | Hne].
        -- rewrite Hnew. apply Rle_refl.
        -- rewrite Hold by lia. specialize (Hmin j ltac:(lia)). lra.
      * intros j Hj. rewrite Hold by lia.
        specialize (Hmin j ltac:(lia)). lra.
    + rewrite (Hold best) by lia.
      split; [reflexivity|]. repeat split; try lia.
      * intros j Hj. destruct (Nat.eq_dec j (length pre)) as [-> | Hne].
        -- rewrite Hnew. lra.
        -- rewrite Hold by lia. apply Hmin. lia.
      * intros j Hj. rewrite Hold by lia. now apply Hfirst.
Qed.

Lemma closest_from_scanned (coords pre : list Coordinate) (q : Coordinate)
    (m : Distance) (best : nat) :
  scanned pre q m best ->
  exists m',
    scanned (pre ++ coords) q m'
      (closest_from (length pre) coords q m best).
Proof.
  revert pre m best. induction coords as [|c rest IH]; intros pre m best Hs.
  - exists m. rewrite app_nil_r. exact Hs.
  - apply (scanned_step pre c q) in Hs. cbv zeta in Hs.
    simpl closest_from.
    replace (pre ++ c :: rest) with ((pre ++ [c]) ++ rest)
      by (rewrite <- app_assoc; reflexivity).
    replace (S (length pre)) with (length (pre ++ [c]))
      by (rewrite length_app; simpl; lia).
    destruct (below (calculate_distance c q) m); now apply IH.
Qed.

Lemma closest_from_first_minimum (c : Coordinate) (rest : list Coordinate)
    (q : Coordinate) :
  first_minimum (c :: rest) q (length (c :: rest))
    (closest_from 0 (c :: rest) q Infinity 0).
Proof.
  destruct (closest_from_scanned (c :: rest) [] q Infinity 0)
    as [m' Hs]; [left; auto|].
  change ([] ++ c :: rest) with (c :: rest) in Hs.
  destruct Hs as [(E & _) | (_ & H)]; [discriminate | exact H].
Qed.

Lemma find_point_on_track_in_range (track : list Coordinate)
    (q : Coordinate) (i : nat) :
  find_point_on_track track q = Some i -> (i < length track)%nat.
Proof.
  destruct track as [|c rest]; [discriminate|].
  intros H. injection H as <-.
  apply (closest_from_first_minimum c rest q).
Qed.

(** C10: [find_point_on_track] returns [None] exactly on the empty track;
    on every other track it returns the smallest index whose distance to
    the query point is minimal (an earlier index wins a tie). *)
Theorem find_point_on_track_first_minimum
    (track_coords : list Coordinate) (target_point : Coordinate) :
  (find_point_on_track track_coords target_point = None
   <-> track_coords = [])
  /\ (track_coords <> [] ->
      exists i,
        find_point_on_track track_coords target_point = Some i
        /\ first_minimum track_coords target_point (length track_coords) i).
Proof.
  split.
  - destruct track_coords; simpl; split; intros H; congruence.
  - intros Hne. destruct track_coords as [|c rest]; [contradiction|].
    eexists. split; [reflexivity|].
    apply closest_from_first_minimum.
Qed.

Lemma find_point_on_track_first_minimum_witness :
  exists i,
    find_point_on_track [north_of_origin 100; origin; origin] origin = Some i
    /\ first_minimum [north_of_origin 100; origin; origin] origin 3 i.
Proof.
  apply (find_point_on_track_first_minimum
           [north_of_origin 100; origin; origin] origin).
  discriminate.
Defined.

(** ** The locator *)

Lemma legs_length_nonneg (track : list Coordinate) (legs : list nat) :
  0 <= legs_length track legs.
Proof.
  induction legs as [|i rest IH]; simpl; [lra|].
  pose proof (calculate_distance_nonneg (nth i track origin)
                (nth (i + 1) track origin)).
  lra.
Qed.

(** The walk ends without a result exactly when the target lies behind
    all of its legs. *)
Lemma walk_legs_none (track : list Coordinate) (legs : list nat)
    (remaining : R) :
  walk_legs track legs remaining = None <->
  (legs = [] \/ legs_length track legs < remaining).
Proof.
  revert remaining. induction legs as [|i rest IH]; intros remaining.
  - simpl. tauto.
  - simpl.
    pose proof (legs_length_nonneg track rest) as Hrest.
    destruct (Rle_dec remaining _) as [Hle | Hgt].
    + split; [discriminate|]. intros [H | H]; [discriminate | lra].
    + rewrite IH. split.
      * intros [-> | H]; right; simpl; lra.
      * intros [H | H]; [discriminate|]. right. lra.
Qed.

Lemma point_at_none (track : list Coordinate) (start : nat) (target : R) :
  point_at_distance_along_track track start target = None <->
  (length track <= start + 1)%nat.
Proof.
  unfold point_at_distance_along_track.
  destruct (Z.geb_spec (Z.of_nat start) (Z.of_nat (length track) - 1))
    as [H | H].
  - split; [lia | reflexivity].
  - split; [|lia].
    destruct (walk_legs track _ target); discriminate.
Qed.

Lemma marker_after_skipped (track : list Coordinate) (ref_coord : Coordinate)
    (start : nat) (target d : R) :
  find_point_on_track track ref_coord = Some start ->
  (length track <= start + 1)%nat ->
  marker_after track ref_coord target d = None.
Proof.
  intros Hfind Hlast. unfold marker_after. rewrite Hfind.
  now rewrite (proj2 (point_at_none track start target) Hlast).
Qed.

(** The reference points found in the document are coordinates of its
    Point placemarks. *)
Lemma collect_reference_points_from (P : Coordinate -> Prop)
    (placemarks : list Placemark) (sp_coord : option Coordinate)
    (tp_coords : list (string * Coordinate))
    (found : option Coordinate * list (string * Coordinate)) :
  (forall placemark coord others,
      In placemark placemarks ->
      pm_point placemark = Some (coord :: others) -> P coord) ->
  (forall sp, sp_coord = Some sp -> P sp) ->
  Forall (fun tp => P (snd tp)) tp_coords ->
  collect_reference_points placemarks sp_coord tp_coords = Some found ->
  (forall sp, fst found = Some sp -> P sp)
  /\ Forall (fun tp => P (snd tp)) (snd found).
Proof.
  revert sp_coord tp_coords.
  induction placemarks as [|placemark rest IH];
    intros sp_coord tp_coords Hpoints Hsp Htp Hfound.
  - injection Hfound as <-. split; assumption.
  - assert (Hrest : forall pm coord others,
               In pm rest -> pm_point pm = Some (coord :: others) -> P coord)
      by (intros pm coord others Hin; apply Hpoints; now right).
    simpl in Hfound.
    destruct (pm_point placemark) as [[|coord others]|] eqn:E;
      try (now apply (IH sp_coord tp_coords)).
    assert (Hcoord : P coord) by (apply (Hpoints placemark coord others);
                                   [now left | exact E]).
    destruct (match pm_name_element placemark with
              | Some text => text
              | None => Some EmptyString
              end) as [text|]; [|discriminate].
    destruct (text =? "SP")%string.
    + apply (IH (Some coord) tp_coords); try assumption.
      intros sp Hsome. now injection Hsome as <-.
    + destruct (prefix "TP " text);
        [|now apply (IH sp_coord tp_coords)].
      apply (IH sp_coord (tp_coords ++ [(text, coord)])); try assumption.
      apply Forall_app. split; [assumption|]. now repeat constructor.
Qed.

Lemma distance_markers_all_skipped (track : list Coordinate)
    (placemarks : list Placemark) (start : nat) (d : R) :
  (length track <= start + 1)%nat ->
  (forall placemark coord others,
      In placemark placemarks ->
      pm_point placemark = Some (coord :: others) ->
      find_point_on_track track coord = Some start) ->
  distance_markers track placemarks d = [].
Proof.
  intros Hlast Hpoints. unfold distance_markers.
  destruct track as [|c track']; [reflexivity|].
  set (track := c :: track') in *.
  destruct (collect_reference_points placemarks None [])
    as [[sp_coord tp_coords]|] eqn:Efound; [|reflexivity].
  destruct (collect_reference_points_from
              (fun coord => find_point_on_track track coord = Some start)
              placemarks None [] (sp_coord, tp_coords) Hpoints)
    as [Hsp Htp]; [discriminate | constructor | exact Efound |].
  cbn [fst snd] in Hsp, Htp. cbv zeta.
  assert (Hsp_none : match sp_coord with
                     | None => []
                     | Some sp =>
                         match marker_after track sp (5 * nautical_mile) d with
                         | None => []
                         | Some marker_line =>
                             [("5NM after SP"%string, marker_line)]
                         end
                     end = ([] : list Marker)).
  { destruct sp_coord as [sp|]; [|reflexivity].
    now rewrite (marker_after_skipped track sp start) by auto. }
  rewrite Hsp_none. simpl app.
  assert (Hsorted : Forall (fun tp => find_point_on_track track (snd tp)
                                      = Some start)
                           (py_sorted tp_key tp_coords)).
  { eapply Permutation_Forall; [apply py_sorted_perm | exact Htp]. }
  induction Hsorted as [|[tp_name tp_coord] rest Hhead _ IH]; [reflexivity|].
  simpl flat_map. rewrite IH. unfold tp_marker.
  now rewrite (marker_after_skipped track tp_coord start) by auto.
Qed.

(** C9: the locator returns [None] exactly when
    [start_index >= len(track) - 1], whatever the target distance; a
    reference point that resolves to such an index, the last one, gets
    no marker: the caller adds nothing for it, and nothing at all when
    every reference point of the document resolves there. *)
Theorem locator_none_at_last_index
    (track_coords : list Coordinate) (start_index : nat)
    (target_distance_m : R) :
  (point_at_distance_along_track track_coords start_index target_distance_m
   = None
   <-> (Z.of_nat start_index >= Z.of_nat (length track_coords) - 1)%Z)
  /\ (forall ref_coord corridor_distance,
         find_point_on_track track_coords ref_coord = Some start_index ->
         (Z.of_nat start_index >= Z.of_nat (length track_coords) - 1)%Z ->
         marker_after track_coords ref_coord target_distance_m
           corridor_distance = None)
  /\ (forall tp_name tp_coord corridor_distance,
         find_point_on_track track_coords tp_coord = Some start_index ->
         (Z.of_nat start_index >= Z.of_nat (length track_coords) - 1)%Z ->
         tp_marker track_coords corridor_distance (tp_name, tp_coord) = [])
  /\ (forall placemarks corridor_distance,
         (forall placemark coord others,
             In placemark placemarks ->
             pm_point placemark = Some (coord :: others) ->
             find_point_on_track track_coords coord = Some start_index) ->
         (Z.of_nat start_index >= Z.of_nat (length track_coords) - 1)%Z ->
         distance_markers track_coords placemarks corridor_distance = []).
Proof.
  split; [|split; [|split]].
  - rewrite point_at_none. lia.
  - intros ref_coord d Hfind Hlast.
    apply (marker_after_skipped _ _ start_index); [assumption | lia].
  - intros tp_name tp_coord d Hfind Hlast. unfold tp_marker.
    rewrite (marker_after_skipped _ _ start_index);
      [reflexivity | assumption | lia].
  - intros placemarks d Hpoints Hlast.
    apply (distance_markers_all_skipped _ _ start_index);
      [lia | assumption].
Qed.

Lemma locator_none_at_last_index_witness :
  point_at_distance_along_track [origin; north_of_origin 100] 1 1852 = None
  /\ marker_after [origin; north_of_origin 100] (north_of_origin 100)
       1852 300 = None
  /\ distance_markers [origin; north_of_origin 100]
       [mkPlacemark (Some (Some "TP 1"%string)) None (Some [north_of_origin 100])]
       300 = [].
Proof.
  assert (Hfind : find_point_on_track [origin; north_of_origin 100]
                    (north_of_origin 100) = Some 1%nat).
  { unfold find_point_on_track, closest_from, below.
    rewrite (distance_north_of_origin 100), calculate_distance_same by lra.
    destruct (Rlt_dec 0 100); [reflexivity | lra]. }
  destruct (locator_none_at_last_index [origin; north_of_origin 100] 1 1852)
    as (Hnone & Hmarker & _ & Hall).
  split; [|split].
  - apply Hnone. simpl. lia.
  - apply Hmarker; [exact Hfind | simpl; lia].
  - apply Hall; [|simpl; lia].
    intros placemark coord others [<- | []] Hpoint.
    simpl in Hpoint. injection Hpoint as <- <-. exact Hfind.
Defined.

Lemma walk_legs_exhausted (track : list Coordinate) (legs : list nat)
    (remaining : R) :
  legs_length track legs < remaining ->
  walk_legs track legs remaining = None.
Proof.
  intros H. apply walk_legs_none. now right.
Qed.

Lemma point_at_exhausted (track : list Coordinate) (start : nat)
    (target : R) :
  (start + 1 < length track)%nat ->
  legs_length track (range start (length track - 1)) < target ->
  point_at_distance_along_track track start target
  = Some (last_point_and_bearing track).
Proof.
  intros Hstart Hlen. unfold point_at_distance_along_track.
  destruct (Z.geb_spec (Z.of_nat start) (Z.of_nat (length track) - 1));
    [lia|].
  rewrite walk_legs_exhausted by assumption.
  destruct (Nat.leb_spec 2 (length track)); [reflexivity | lia].
Qed.

(** C2, as the code has it: when the start index has a leg in front of it
    ([start_index < len(track) - 1]) and the legs from there to the end
    of the track are together shorter than the target distance, the
    locator returns the last track point with the bearing of the last
    leg. *)
Theorem locator_exhausted_returns_last_point
    (track_coords : list Coordinate) (start_index : nat)
    (target_distance_m : R) :
  (Z.of_nat start_index < Z.of_nat (length track_coords) - 1)%Z ->
  legs_length track_coords (range start_index (length track_coords - 1))
  < target_distance_m ->
  point_at_distance_along_track track_coords start_index target_distance_m
  = Some (last_point_and_bearing track_coords).
Proof.
  intros Hstart Hshort. apply point_at_exhausted; [lia | assumption].
Qed.

Lemma locator_exhausted_returns_last_point_witness :
  point_at_distance_along_track [origin; north_of_origin 100] 0 1852
  = Some (last_point_and_bearing [origin; north_of_origin 100]).
Proof.
  apply locator_exhausted_returns_last_point.
  - simpl. lia.
  - cbn [legs_length range seq length Nat.sub Nat.add nth].
    rewrite (distance_north_of_origin 100) by lra. lra.
Defined.

(** C2 as stated fails when the start index is the last index of the
    track: no leg is walked, nothing is accumulated, the target is not
    reached, and the locator returns [None] instead of the last point. *)
Lemma locator_exhausted_counterexample :
  legs_length [origin; north_of_origin 100]
    (range 1 (length [origin; north_of_origin 100] - 1)) < 1852
  /\ point_at_distance_along_track [origin; north_of_origin 100] 1 1852
     = None
  /\ point_at_distance_along_track [origin; north_of_origin 100] 1 1852
     <> Some (last_point_and_bearing [origin; north_of_origin 100]).
Proof.
  assert (Hnone : point_at_distance_along_track
                    [origin; north_of_origin 100] 1 1852 = None)
    by (apply point_at_none; simpl; lia).
  split; [cbn [legs_length range seq length Nat.sub]; lra|].
  split; [exact Hnone|].
  rewrite Hnone. discriminate.
Qed.

(** ** The track builder *)

Lemma last_item_snoc {A : Type} (l : list A) (a : A) :
  last_item (l ++ [a]) = Some a.
Proof.
  destruct l as [|x l]; [reflexivity|].
  simpl. now rewrite last_last.
Qed.

Lemma last_item_some {A : Type} (l : list A) (a : A) :
  last_item l = Some a -> exists l', l = l' ++ [a].
Proof.
  intros H. destruct l as [|x l]; [discriminate|].
  destruct (exists_last (l := x :: l) ltac:(discriminate)) as (l' & a' & E).
  rewrite E, last_item_snoc in H. injection H as ->.
  now exists l'.
Qed.

Lemma segment_key_nodup (l : list Segment) :
  NoDup (map index l) -> NoDup (map segment_key l).
Proof.
  intros H. unfold segment_key. rewrite <- (map_map index Z.of_nat).
  apply Finite.Injective_map_NoDup; [|assumption].
  intros x y. apply Nat2Z.inj.
Qed.

Lemma build_unfold (main_segments : list Segment) :
  build_detailed_continuous_track main_segments
  = stitch_from 0 (py_sorted segment_key main_segments) [].
Proof.
  destruct main_segments; reflexivity.
Qed.

(** The track built so far is only ever extended. *)
Lemma stitch_segment_extends (track : list Coordinate) (i : nat)
    (segment : Segment) (track' : list Coordinate) :
  stitch_segment track i segment = Some track' ->
  exists tail, track' = track ++ tail.
Proof.
  unfold stitch_segment.
  destruct (i =? 0)%nat.
  - intros H. injection H as <-. eauto.
  - destruct (last_item track); [|discriminate].
    destruct (coordinates segment) as [|b rest]; [discriminate|].
    destruct (Rlt_dec _ 50); intros H; injection H as <-; eauto.
Qed.

Lemma stitch_from_extends (segs : list Segment) (i : nat)
    (track track' : list Coordinate) :
  stitch_from i segs track = Some track' ->
  exists tail, track' = track ++ tail.
Proof.
  revert i track. induction segs as [|s segs IH]; intros i track H.
  - injection H as <-. exists []. now rewrite app_nil_r.
  - simpl in H.
    destruct (stitch_segment track i s) as [t1|] eqn:E; [|discriminate].
    apply stitch_segment_extends in E as [tail1 ->].
    apply IH in H as [tail2 ->].
    exists (tail1 ++ tail2). now rewrite app_assoc.
Qed.

Lemma stitch_from_app (pre post : list Segment) (i : nat)
    (track : list Coordinate) :
  stitch_from i (pre ++ post) track
  = match stitch_from i pre track with
    | None => None
    | Some track' => stitch_from (i + length pre) post track'
    end.
Proof.
  revert i track. induction pre as [|s pre IH]; intros i track.
  - simpl. now rewrite Nat.add_0_r.
  - simpl. destruct (stitch_segment track i s); [|reflexivity].
    rewrite IH. now rewrite Nat.add_succ_comm.
Qed.

(** The origin indices given out by the extraction loop are positions
    of the document: they grow along the list of segments. *)
Lemma extract_segments_lower_bound (placemarks : list Placemark) (i : nat) :
  Forall (fun seg => (i <= index seg)%nat) (extract_segments i placemarks).
Proof.
  revert i. induction placemarks as [|placemark rest IH]; intros i; simpl.
  - constructor.
  - assert (Hrest : Forall (fun seg => (i <= index seg)%nat)
                      (extract_segments (S i) rest)).
    { eapply Forall_impl; [|apply (IH (S i))]. simpl. intros; lia. }
    destruct (pm_linestring placemark) as [coords|]; [|exact Hrest].
    destruct (length coords =? 3)%nat; [exact Hrest|].
    constructor; [simpl; lia | exact Hrest].
Qed.

Lemma extract_segments_nodup (placemarks : list Placemark) (i : nat) :
  NoDup (map index (extract_segments i placemarks)).
Proof.
  revert i. induction placemarks as [|placemark rest IH]; intros i; simpl.
  - constructor.
  - destruct (pm_linestring placemark) as [coords|]; [|apply IH].
    destruct (length coords =? 3)%nat; [apply IH|].
    simpl. constructor; [|apply IH].
    intros Hin. apply in_map_iff in Hin as (seg & Hidx & Hseg).
    pose proof (extract_segments_lower_bound rest (S i)) as Hlow.
    rewrite Forall_forall in Hlow. apply Hlow in Hseg. lia.
Qed.

Lemma nodup_map_filter {A B : Type} (g : A -> B) (f : A -> bool)
    (l : list A) :
  NoDup (map g l) -> NoDup (map g (filter f l)).
Proof.
  induction l as [|x l IH]; simpl; intros H; [constructor|].
  inversion H as [|? ? Hnotin Hnd]; subst.
  destruct (f x); [|now apply IH].
  simpl. constructor; [|now apply IH].
  intros Hin. apply Hnotin.
  apply in_map_iff in Hin as (y & Hy & Hin).
  apply filter_In in Hin as [Hin _].
  rewrite <- Hy. now apply in_map.
Qed.

Lemma main_track_segments_nodup (placemarks : list Placemark) :
  NoDup (map index (main_track_segments placemarks)).
Proof.
  apply nodup_map_filter, extract_segments_nodup.
Qed.

Lemma build_permutation (main_segments rearranged : list Segment) :
  NoDup (map index main_segments) ->
  Permutation main_segments rearranged ->
  build_detailed_continuous_track rearranged
  = build_detailed_continuous_track main_segments.
Proof.
  intros Hnd Hperm. rewrite !build_unfold. f_equal. symmetry.
  apply py_sorted_perm_invariant; [assumption|].
  now apply segment_key_nodup.
Qed.

Lemma stitch_segment_later (track : list Coordinate) (i : nat)
    (s : Segment) :
  i <> 0%nat -> track <> [] ->
  (no_coordinates s -> stitch_segment track i s = None)
  /\ (~ no_coordinates s ->
      exists track',
        stitch_segment track i s = Some track' /\ track' <> []
        /\ (length track + length (coordinates s) <= length track' + 1)%nat
        /\ (length track' <= length track + length (coordinates s))%nat
        /\ forall c, In c track' -> In c track \/ In c (coordinates s)).
Proof.
  intros Hi Htrack. unfold stitch_segment, no_coordinates.
  destruct (Nat.eqb_spec i 0); [contradiction|].
  destruct (last_item track) as [a|] eqn:Ea;
    [|destruct track; [contradiction | discriminate]].
  split.
  - intros ->. reflexivity.
  - intros Hne. destruct (coordinates s) as [|b rest]; [contradiction|].
    destruct (Rlt_dec (calculate_distance a b) 50); eexists;
      (split; [reflexivity|]); rewrite length_app; simpl length;
      (split; [destruct track; [contradiction | discriminate]|]);
      (split; [lia|]); (split; [lia|]);
      intros c Hc; apply in_app_or in Hc; simpl; tauto.
Qed.

Lemma total_coordinates_cons (s : Segment) (segs : list Segment) :
  total_coordinates (s :: segs)
  = (length (coordinates s) + total_coordinates segs)%nat.
Proof. reflexivity. Qed.

(** After the first segment, on a track that has a point: the loop
    fails exactly when it meets a segment without coordinates. *)
Lemma stitch_from_later (segs : list Segment) (i : nat)
    (track : list Coordinate) :
  i <> 0%nat -> track <> [] ->
  (Exists no_coordinates segs -> stitch_from i segs track = None)
  /\ (~ Exists no_coordinates segs ->
      exists track',
        stitch_from i segs track = Some track' /\ track' <> []
        /\ (length track + total_coordinates segs
            <= length track' + length segs)%nat
        /\ (length track' <= length track + total_coordinates segs)%nat
        /\ forall c, In c track' ->
                     In c track
                     \/ exists s, In s segs /\ In c (coordinates s)).
Proof.
  revert i track. induction segs as [|s segs IH]; intros i track Hi Htrack.
  - split; [intros H; inversion H|].
    intros _. exists track. unfold total_coordinates. simpl.
    split; [reflexivity|]. split; [assumption|].
    split; [lia|]. split; [lia|].
    intros c Hc. now left.
  - destruct (stitch_segment_later track i s Hi Htrack) as [Hfail Hok].
    simpl stitch_from.
    destruct (coordinates s) as [|b rest] eqn:Es.
    + rewrite Hfail by exact Es. split; [reflexivity|].
      intros Hno. exfalso. apply Hno. now left.
    + destruct Hok as (t1 & E1 & Hne1 & Hlo1 & Hhi1 & Hin1);
        [unfold no_coordinates; rewrite Es; discriminate|].
      rewrite E1.
      destruct (IH (S i) t1 ltac:(lia) Hne1) as [Hfail' Hok'].
      split.
      * intros Hex. apply Hfail'.
        inversion Hex as [? ? Hs | ? ? Hrest]; subst; [|assumption].
        unfold no_coordinates in Hs. congruence.
      * intros Hno.
        destruct Hok' as (t2 & E2 & Hne2 & Hlo2 & Hhi2 & Hin2);
          [intros Hex; apply Hno; now right|].
        exists t2. rewrite total_coordinates_cons, Es in *.
        simpl length in *.
        split; [exact E2|]. split; [exact Hne2|].
        split; [lia|]. split; [lia|].
        intros c Hc. destruct (Hin2 c Hc) as [Hc1 | (s' & Hs' & Hc')].
        -- destruct (Hin1 c Hc1) as [Hc0 | Hcs]; [now left|].
           right. exists s. split; [now left | now rewrite Es].
        -- right. exists s'. split; [now right | assumption].
Qed.

Lemma stitch_from_start (s0 : Segment) (rest : list Segment) :
  stitch_from 0 (s0 :: rest) [] = stitch_from 1 rest (coordinates s0).
Proof. reflexivity. Qed.

Lemma total_coordinates_perm (l1 l2 : list Segment) :
  Permutation l1 l2 -> total_coordinates l1 = total_coordinates l2.
Proof.
  intros H. unfold total_coordinates.
  induction H; simpl; try lia.
Qed.

Lemma exists_perm {A : Type} (P : A -> Prop) (l1 l2 : list A) :
  Permutation l1 l2 -> Exists P l1 -> Exists P l2.
Proof.
  intros Hperm Hex. apply Exists_exists in Hex as (x & Hin & Hx).
  apply Exists_exists. exists x. split; [|assumption].
  eapply Permutation_in; eassumption.
Qed.

Lemma no_coordinates_dec (s : Segment) :
  {no_coordinates s} + {~ no_coordinates s}.
Proof.
  unfold no_coordinates. destruct (coordinates s); [now left | now right].
Qed.

Lemma build_fails_iff (main_segments : list Segment) :
  build_detailed_continuous_track main_segments = None
  <-> (2 <= length main_segments)%nat
      /\ Exists no_coordinates main_segments.
Proof.
  rewrite build_unfold.
  pose proof (py_sorted_perm segment_key main_segments) as Hperm.
  rewrite (Permutation_length Hperm).
  assert (Hex : Exists no_coordinates main_segments
                <-> Exists no_coordinates
                      (py_sorted segment_key main_segments)).
  { split; apply exists_perm;
      [assumption | now apply Permutation_sym]. }
  rewrite Hex.
  destruct (py_sorted segment_key main_segments) as [|s0 rest];
    [simpl; split; [discriminate | intros [H _]; lia]|].
  rewrite stitch_from_start.
  destruct rest as [|s1 rest].
  - simpl. split; [discriminate | intros [H _]; lia].
  - destruct (coordinates s0) as [|a0 front] eqn:E0.
    + split; [|reflexivity]. intros _. split; [simpl; lia|].
      now left.
    + destruct (stitch_from_later (s1 :: rest) 1 (a0 :: front))
        as [Hfail Hok]; [lia | discriminate |].
      split.
      * intros Hnone. split; [simpl; lia|]. right.
        destruct (Exists_dec no_coordinates (s1 :: rest)
                    no_coordinates_dec) as [H | H];
          [assumption|].
        destruct (Hok H) as (t & Et & _). congruence.
      * intros [_ Hex']. apply Hfail.
        inversion Hex' as [? ? Hs | ? ? Hrest]; subst; [|assumption].
        unfold no_coordinates in Hs. congruence.
Qed.

Lemma sorted_by_index (l : list Segment) :
  StronglySorted (key_le segment_key) l ->
  StronglySorted (fun a b => (index a <= index b)%nat) l.
Proof.
  induction 1 as [|s l Hs IH Hall]; constructor; [exact IH|].
  eapply Forall_impl; [|exact Hall].
  unfold key_le, segment_key. intros; lia.
Qed.

Lemma stitch_segment_piece (track : list Coordinate) (i : nat)
    (s : Segment) (track' : list Coordinate) :
  stitch_segment track i s = Some track' ->
  exists piece,
    stitched_piece s piece /\ track' = track ++ piece
    /\ (i = 0%nat -> piece = coordinates s).
Proof.
  unfold stitch_segment, stitched_piece.
  destruct (Nat.eqb_spec i 0) as [Hi | Hi].
  - intros H. injection H as <-. exists (coordinates s). auto.
  - destruct (last_item track); [|discriminate].
    destruct (coordinates s) as [|b rest]; [discriminate|].
    destruct (Rlt_dec _ 50); intros H; injection H as <-;
      [exists rest | exists (b :: rest)]; simpl; tauto.
Qed.

(** The track is the chain of what the segments contribute, in the
    order in which they are stitched. *)
Lemma stitch_from_pieces (segs : list Segment) (i : nat)
    (track track' : list Coordinate) :
  stitch_from i segs track = Some track' ->
  exists pieces,
    Forall2 stitched_piece segs pieces
    /\ track' = track ++ concat pieces
    /\ (i = 0%nat ->
        forall s0 rest, segs = s0 :: rest ->
                        exists others, pieces = coordinates s0 :: others).
Proof.
  revert i track. induction segs as [|s segs IH]; intros i track H.
  - injection H as <-. exists []. simpl. rewrite app_nil_r.
    split; [constructor|]. split; [reflexivity|]. intros _ s0 rest E.
    discriminate.
  - simpl in H.
    destruct (stitch_segment track i s) as [t1|] eqn:E1; [|discriminate].
    apply stitch_segment_piece in E1 as (piece & Hpiece & -> & Hfirst).
    apply IH in H as (pieces & Hall & -> & _).
    exists (piece :: pieces). simpl. rewrite app_assoc.
    split; [now constructor|]. split; [reflexivity|].
    intros Hi s0 rest E. injection E as <- <-.
    exists pieces. now rewrite (Hfirst Hi).
Qed.

Lemma build_succeeds (main_segments : list Segment) :
  Forall (fun s => coordinates s <> []) main_segments ->
  exists track, build_detailed_continuous_track main_segments = Some track.
Proof.
  intros Hall.
  destruct (build_detailed_continuous_track main_segments) as [track|] eqn:E;
    [now exists track|].
  apply build_fails_iff in E as [_ Hex].
  apply Exists_exists in Hex as (s & Hin & Hs).
  rewrite Forall_forall in Hall. now destruct (Hall s Hin).
Qed.

(** C8 as stated fails for segments that share an origin index: the
    sort is stable, so two segments of equal index are stitched in the
    order in which they are given, and the two orders give two
    different tracks. *)
Lemma build_track_order_counterexample :
  Permutation
    [mkSegment 0 (Some "out"%string) [origin; north_of_origin 1000] 2;
     mkSegment 0 (Some "back"%string) [north_of_origin 1000; origin] 2]
    [mkSegment 0 (Some "back"%string) [north_of_origin 1000; origin] 2;
     mkSegment 0 (Some "out"%string) [origin; north_of_origin 1000] 2]
  /\ is_dashed_connector_line
       (mkSegment 0 (Some "out"%string) [origin; north_of_origin 1000] 2)
     = false
  /\ is_dashed_connector_line
       (mkSegment 0 (Some "back"%string) [north_of_origin 1000; origin] 2)
     = false
  /\ build_detailed_continuous_track
       [mkSegment 0 (Some "out"%string) [origin; north_of_origin 1000] 2;
        mkSegment 0 (Some "back"%string) [north_of_origin 1000; origin] 2]
     = Some [origin; north_of_origin 1000; origin]
  /\ build_detailed_continuous_track
       [mkSegment 0 (Some "back"%string) [north_of_origin 1000; origin] 2;
        mkSegment 0 (Some "out"%string) [origin; north_of_origin 1000] 2]
     = Some [north_of_origin 1000; origin; north_of_origin 1000]
  /\ build_detailed_continuous_track
       [mkSegment 0 (Some "out"%string) [origin; north_of_origin 1000] 2;
        mkSegment 0 (Some "back"%string) [north_of_origin 1000; origin] 2]
     <> build_detailed_continuous_track
          [mkSegment 0 (Some "back"%string) [north_of_origin 1000; origin] 2;
           mkSegment 0 (Some "out"%string) [origin; north_of_origin 1000] 2].
Proof.
  assert (Hfar : calculate_distance origin (north_of_origin 1000) = 1000)
    by (apply distance_north_of_origin; lra).
  assert (Hback : calculate_distance (north_of_origin 1000) origin = 1000)
    by (rewrite calculate_distance_symmetric_aux; exact Hfar).
  assert (Hout : build_detailed_continuous_track
                   [mkSegment 0 (Some "out"%string)
                      [origin; north_of_origin 1000] 2;
                    mkSegment 0 (Some "back"%string)
                      [north_of_origin 1000; origin] 2]
                 = Some [origin; north_of_origin 1000; origin]).
  { unfold build_detailed_continuous_track.
    change (py_sorted segment_key _)
      with [mkSegment 0 (Some "out"%string) [origin; north_of_origin 1000] 2;
            mkSegment 0 (Some "back"%string)
              [north_of_origin 1000; origin] 2].
    cbn [stitch_from stitch_segment Nat.eqb coordinates app last_item last].
    rewrite calculate_distance_same.
    destruct (Rlt_dec 0 50); [reflexivity | lra]. }
  assert (Hin : build_detailed_continuous_track
                  [mkSegment 0 (Some "back"%string)
                     [north_of_origin 1000; origin] 2;
                   mkSegment 0 (Some "out"%string)
                     [origin; north_of_origin 1000] 2]
                = Some [north_of_origin 1000; origin; north_of_origin 1000]).
  { unfold build_detailed_continuous_track.
    change (py_sorted segment_key _)
      with [mkSegment 0 (Some "back"%string)
              [north_of_origin 1000; origin] 2;
            mkSegment 0 (Some "out"%string) [origin; north_of_origin 1000] 2].
    cbn [stitch_from stitch_segment Nat.eqb coordinates app last_item last].
    rewrite calculate_distance_same.
    destruct (Rlt_dec 0 50); [reflexivity | lra]. }
  split; [apply perm_swap|].
  split.
  { rewrite (is_dashed_two_points _ origin (north_of_origin 1000))
      by reflexivity.
    rewrite Hfar. destruct (Rlt_dec 1000 500); [lra | reflexivity]. }
  split.
  { rewrite (is_dashed_two_points _ (north_of_origin 1000) origin)
      by reflexivity.
    rewrite Hback. destruct (Rlt_dec 1000 500); [lra | reflexivity]. }
  split; [exact Hout|]. split; [exact Hin|].
  rewrite Hout, Hin. intros E.
  apply (f_equal (fun built => match built with
                                | Some (first :: _) => first
                                | _ => origin
                                end)) in E.
  cbv beta iota in E.
  pose proof (calculate_distance_same origin) as Hsame.
  rewrite <- E in Hfar. lra.
Qed.

(** C8, as the code has it: the builder orders the segments by their
    origin index alone.  It stitches them in ascending order of origin
    index, segments of equal index in the order given: the track is the
    chain of the coordinates of the segments in that order, each after
    the first with or without its first coordinate, and it is built
    whenever every segment has a coordinate.  For segments of pairwise
    distinct origin indices every rearrangement of the list gives the
    same result; the main-track segments that [generate_corridors_kml]
    extracts, whose indices are positions in the document, are such a
    list. *)
Theorem build_track_order_independent :
  (forall main_segments,
      exists sorted_segments,
        Permutation main_segments sorted_segments
        /\ StronglySorted (fun a b => (index a <= index b)%nat)
             sorted_segments
        /\ (forall i,
               filter (fun s => (index s =? i)%nat) sorted_segments
               = filter (fun s => (index s =? i)%nat) main_segments)
        /\ (forall track,
               build_detailed_continuous_track main_segments = Some track ->
               exists pieces,
                 Forall2 stitched_piece sorted_segments pieces
                 /\ track = concat pieces
                 /\ forall s0 rest,
                      sorted_segments = s0 :: rest ->
                      exists others, pieces = coordinates s0 :: others)
        /\ (Forall (fun s => coordinates s <> []) main_segments ->
            exists track,
              build_detailed_continuous_track main_segments = Some track))
  /\ (forall main_segments rearranged,
         NoDup (map index main_segments) ->
         Permutation main_segments rearranged ->
         build_detailed_continuous_track rearranged
         = build_detailed_continuous_track main_segments)
  /\ (forall placemarks,
         NoDup (map index (main_track_segments placemarks)))
  /\ (forall placemarks rearranged,
         Permutation (main_track_segments placemarks) rearranged ->
         build_detailed_continuous_track rearranged
         = build_detailed_continuous_track (main_track_segments placemarks)).
Proof.
  split; [|split; [|split]].
  - intros main_segments.
    exists (py_sorted segment_key main_segments).
    split; [apply py_sorted_perm|].
    split; [apply sorted_by_index, py_sorted_sorted|].
    split.
    { intros i.
      pose proof (py_sorted_stable segment_key (Z.of_nat i) main_segments)
        as Hstable.
      assert (Hsame : forall l,
                filter (fun s => (segment_key s =? Z.of_nat i)%Z) l
                = filter (fun s => (index s =? i)%nat) l).
      { intros l. apply filter_ext. intros s. unfold segment_key.
        destruct (Nat.eqb_spec (index s) i) as [-> | Hne].
        - apply Z.eqb_refl.
        - apply Z.eqb_neq. lia. }
      now rewrite <- !Hsame. }
    split; [|apply build_succeeds].
    intros track Hbuild. rewrite build_unfold in Hbuild.
    apply stitch_from_pieces in Hbuild as (pieces & Hall & -> & Hfirst).
    exists pieces. split; [exact Hall|]. split; [reflexivity|].
    now apply Hfirst.
  - apply build_permutation.
  - apply main_track_segments_nodup.
  - intros placemarks rearranged.
    apply build_permutation, main_track_segments_nodup.
Qed.

Lemma build_track_order_independent_witness :
  build_detailed_continuous_track
    [mkSegment 2 (Some "leg 2"%string)
       [north_of_origin 100; north_of_origin 200] 2;
     mkSegment 0 (Some "leg 1"%string) [origin; north_of_origin 100] 2]
  = build_detailed_continuous_track
      [mkSegment 0 (Some "leg 1"%string) [origin; north_of_origin 100] 2;
       mkSegment 2 (Some "leg 2"%string)
         [north_of_origin 100; north_of_origin 200] 2].
Proof.
  destruct build_track_order_independent as (_ & Hperm & _).
  apply Hperm.
  - simpl. repeat constructor; simpl; intuition lia.
  - apply perm_swap.
Defined.

Lemma build_two_segments (main_segments : list Segment) (s1 s2 : Segment) :
  Permutation main_segments [s1; s2] -> (index s1 < index s2)%nat ->
  build_detailed_continuous_track main_segments
  = stitch_from 0 [s1; s2] [].
Proof.
  intros Hperm Hlt. rewrite build_unfold. f_equal.
  apply (sorted_perm_unique segment_key).
  - apply py_sorted_sorted.
  - repeat constructor. unfold key_le, segment_key. lia.
  - rewrite <- py_sorted_perm. exact Hperm.
  - eapply Permutation_NoDup.
    + apply Permutation_map. etransitivity; [|apply py_sorted_perm].
      apply Permutation_sym. exact Hperm.
    + simpl. unfold segment_key.
      repeat constructor; simpl; intuition lia.
Qed.

(** C4: for two segments with a last, resp. first, coordinate, stitched
    in origin order: when the last coordinate of the first segment is
    strictly less than 50 m from the first coordinate of the second, the
    track has [len(s1) + len(s2) - 1] points; when it is at least 50 m
    away, the track has [len(s1) + len(s2)] points. *)
Theorem build_track_two_segments_length
    (main_segments : list Segment) (s1 s2 : Segment)
    (front1 : list Coordinate) (last1 first2 : Coordinate)
    (rest2 : list Coordinate) :
  Permutation main_segments [s1; s2] ->
  (index s1 < index s2)%nat ->
  coordinates s1 = front1 ++ [last1] ->
  coordinates s2 = first2 :: rest2 ->
  exists track,
    build_detailed_continuous_track main_segments = Some track
    /\ (calculate_distance last1 first2 < 50 ->
        length track
        = (length (coordinates s1) + length (coordinates s2) - 1)%nat)
    /\ (50 <= calculate_distance last1 first2 ->
        length track
        = (length (coordinates s1) + length (coordinates s2))%nat).
Proof.
  intros Hperm Hlt E1 E2.
  rewrite (build_two_segments _ s1 s2 Hperm Hlt).
  simpl stitch_from. unfold stitch_segment at 1. simpl Nat.eqb. cbv iota.
  simpl app. unfold stitch_segment. simpl Nat.eqb. cbv iota zeta.
  rewrite E1, last_item_snoc, E2.
  destruct (Rlt_dec (calculate_distance last1 first2) 50) as [Hnear | Hfar];
    eexists; (split; [reflexivity|]); split; intros H; try lra;
    rewrite !length_app; simpl; lia.
Qed.

Lemma build_track_two_segments_length_witness :
  (exists track,
      build_detailed_continuous_track
        [mkSegment 0 (Some "leg 1"%string) [origin; north_of_origin 1000] 2;
         mkSegment 1 (Some "leg 2"%string) [north_of_origin 1000; north_of_origin 2000] 2]
      = Some track
      /\ length track = 3%nat)
  /\ (exists track,
         build_detailed_continuous_track
           [mkSegment 3 (Some "leg 2"%string) [north_of_origin 1000; north_of_origin 2000] 2;
            mkSegment 1 (Some "leg 1"%string) [north_of_origin 500; origin] 2]
         = Some track
         /\ length track = 4%nat).
Proof.
  split.
  - destruct (build_track_two_segments_length
                [mkSegment 0 (Some "leg 1"%string) [origin; north_of_origin 1000] 2;
                 mkSegment 1 (Some "leg 2"%string)
                   [north_of_origin 1000; north_of_origin 2000] 2]
                (mkSegment 0 (Some "leg 1"%string) [origin; north_of_origin 1000] 2)
                (mkSegment 1 (Some "leg 2"%string)
                   [north_of_origin 1000; north_of_origin 2000] 2)
                [origin] (north_of_origin 1000) (north_of_origin 1000)
                [north_of_origin 2000])
      as (track & Hbuild & Hnear & _).
    + apply Permutation_refl.
    + simpl. lia.
    + reflexivity.
    + reflexivity.
    + exists track. split; [exact Hbuild|].
      apply Hnear. rewrite calculate_distance_same. lra.
  - destruct (build_track_two_segments_length
                [mkSegment 3 (Some "leg 2"%string)
                   [north_of_origin 1000; north_of_origin 2000] 2;
                 mkSegment 1 (Some "leg 1"%string) [north_of_origin 500; origin] 2]
                (mkSegment 1 (Some "leg 1"%string) [north_of_origin 500; origin] 2)
                (mkSegment 3 (Some "leg 2"%string)
                   [north_of_origin 1000; north_of_origin 2000] 2)
                [north_of_origin 500] origin (north_of_origin 1000)
                [north_of_origin 2000])
      as (track & Hbuild & _ & Hfar).
    + apply perm_swap.
    + simpl. lia.
    + reflexivity.
    + reflexivity.
    + exists track. split; [exact Hbuild|].
      apply Hfar. rewrite (distance_north_of_origin 1000) by lra. lra.
Defined.

(** C5 as stated fails inside a segment: a segment that repeats a vertex
    is a main-track segment, it is copied to the track as it is, and the
    track then holds two consecutive points at distance 0. *)
Lemma track_adjacent_points_counterexample :
  is_dashed_connector_line
    (mkSegment 0 (Some "track"%string)
       [origin; north_of_origin 1000; north_of_origin 1000;
        north_of_origin 2000] 4) = false
  /\ build_detailed_continuous_track
       [mkSegment 0 (Some "track"%string)
          [origin; north_of_origin 1000; north_of_origin 1000;
           north_of_origin 2000] 4]
     = Some [origin; north_of_origin 1000; north_of_origin 1000;
             north_of_origin 2000]
  /\ ~ adjacent_points_apart
         [origin; north_of_origin 1000; north_of_origin 1000;
          north_of_origin 2000].
Proof.
  split; [|split].
  - apply is_dashed_other_count. simpl. lia.
  - reflexivity.
  - intros H. specialize (H 1%nat ltac:(simpl; lia)).
    cbn [nth Nat.add] in H. rewrite calculate_distance_same in H. lra.
Qed.

(** C5, as the code has it: points are collapsed at the junctions of
    segments only.  For every segment [s] after the first, in origin
    order, with [a] the last point of the track built from the segments
    before it and [b] its first coordinate: either [b] is strictly less
    than 50 m from [a] and is dropped, or [b] is at least 50 m from [a]
    and follows [a] in the track.  The other coordinates of [s] are
    appended as they are. *)
Theorem track_junctions_collapsed
    (main_segments : list Segment) (track : list Coordinate)
    (pre : list Segment) (s : Segment) (post : list Segment) :
  build_detailed_continuous_track main_segments = Some track ->
  py_sorted segment_key main_segments = pre ++ s :: post ->
  pre <> [] ->
  exists before a b rest after,
    stitch_from 0 pre [] = Some (before ++ [a])
    /\ coordinates s = b :: rest
    /\ ((calculate_distance a b < 50
         /\ track = before ++ [a] ++ rest ++ after)
        \/ (50 <= calculate_distance a b
            /\ track = before ++ [a] ++ (b :: rest) ++ after)).
Proof.
  intros Hbuild Hsorted Hpre.
  rewrite build_unfold, Hsorted, stitch_from_app in Hbuild.
  destruct (stitch_from 0 pre []) as [t0|] eqn:E0; [|discriminate].
  simpl in Hbuild.
  destruct (stitch_segment t0 (length pre) s) as [t1|] eqn:E1;
    [|discriminate].
  apply stitch_from_extends in Hbuild as [after ->].
  unfold stitch_segment in E1.
  destruct (Nat.eqb_spec (length pre) 0) as [Hlen | _];
    [destruct pre; [contradiction | discriminate]|].
  destruct (last_item t0) as [a|] eqn:Ea; [|discriminate].
  apply last_item_some in Ea as [before ->].
  destruct (coordinates s) as [|b rest]; [discriminate|].
  exists before, a, b, rest, after.
  split; [reflexivity|]. split; [reflexivity|].
  destruct (Rlt_dec (calculate_distance a b) 50) as [Hnear | Hfar];
    injection E1 as <-; [left | right]; (split; [lra|]);
    now rewrite <- !app_assoc.
Qed.

Lemma track_junctions_collapsed_witness :
  exists before a b rest after,
    stitch_from 0 [mkSegment 1 (Some "leg 1"%string) [north_of_origin 500; origin] 2] []
    = Some (before ++ [a])
    /\ [north_of_origin 1000; north_of_origin 2000] = b :: rest
    /\ ((calculate_distance a b < 50
         /\ [north_of_origin 500; origin; north_of_origin 1000;
             north_of_origin 2000]
            = before ++ [a] ++ rest ++ after)
        \/ (50 <= calculate_distance a b
            /\ [north_of_origin 500; origin; north_of_origin 1000;
                north_of_origin 2000]
               = before ++ [a] ++ (b :: rest) ++ after)).
Proof.
  assert (Hfar : ~ calculate_distance origin (north_of_origin 1000) < 50)
    by (rewrite (distance_north_of_origin 1000) by lra; lra).
  apply (track_junctions_collapsed
           [mkSegment 3 (Some "leg 2"%string)
              [north_of_origin 1000; north_of_origin 2000] 2;
            mkSegment 1 (Some "leg 1"%string) [north_of_origin 500; origin] 2]
           [north_of_origin 500; origin; north_of_origin 1000;
            north_of_origin 2000]
           [mkSegment 1 (Some "leg 1"%string) [north_of_origin 500; origin] 2]
           (mkSegment 3 (Some "leg 2"%string)
              [north_of_origin 1000; north_of_origin 2000] 2)
           []).
  - unfold build_detailed_continuous_track.
    change (py_sorted segment_key _)
      with [mkSegment 1 (Some "leg 1"%string) [north_of_origin 500; origin] 2;
            mkSegment 3 (Some "leg 2"%string)
              [north_of_origin 1000; north_of_origin 2000] 2].
    cbn [stitch_from stitch_segment Nat.eqb coordinates app last_item last].
    destruct (Rlt_dec (calculate_distance origin (north_of_origin 1000)) 50);
      [contradiction | reflexivity].
  - reflexivity.
  - discriminate.
Defined.

(** ** The order of the turning points *)



Lemma collected_names_TP (placemarks : list Placemark)
    (sp_coord : option Coordinate) (tp_coords : list (string * Coordinate))
    (found : option Coordinate * list (string * Coordinate)) :
  Forall (fun x => prefix "TP " (fst x) = true) tp_coords ->
  collect_reference_points placemarks sp_coord tp_coords = Some found ->
  Forall (fun x => prefix "TP " (fst x) = true) (snd found).
Proof.
  revert sp_coord tp_coords.
  induction placemarks as [|placemark rest IH];
    intros sp_coord tp_coords H Hfound.
  - now injection Hfound as <-.
  - simpl in Hfound.
    destruct (pm_point placemark) as [[|coord others]|];
      try (now apply (IH sp_coord tp_coords)).
    destruct (match pm_name_element placemark with
              | Some text => text
              | None => Some EmptyString
              end) as [text|]; [|discriminate].
    destruct (text =? "SP")%string;
      [now apply (IH (Some coord) tp_coords)|].
    destruct (prefix "TP " text) eqn:E;
      [|now apply (IH sp_coord tp_coords)].
    apply (IH sp_coord (tp_coords ++ [(text, coord)])); [|assumption].
    apply Forall_app. split; [assumption|].
    constructor; [exact E | constructor].
Qed.

Example split_words_of_name :
  split " TP   12 " = ["TP"; "12"]%string.
Proof. reflexivity. Qed.

Example tp_key_of_number : tp_key ("TP 12"%string, origin) = 12%Z.
Proof. reflexivity. Qed.

Example tp_key_of_padded_number : tp_key ("TP 007"%string, origin) = 7%Z.
Proof. reflexivity. Qed.

Example tp_key_of_word : tp_key ("TP 3a"%string, origin) = 0%Z.
Proof. reflexivity. Qed.

Example tp_key_of_bare_name : tp_key ("TP "%string, origin) = 0%Z.
Proof. reflexivity. Qed.


Lemma string_append_empty (s : string) : (s ++ "")%string = s.
Proof.
  induction s as [|c s IH]; simpl; [reflexivity | now rewrite IH].
Qed.

Lemma string_append_assoc (s1 s2 s3 : string) :
  ((s1 ++ s2) ++ s3)%string = (s1 ++ (s2 ++ s3))%string.
Proof.
  induction s1 as [|c s1 IH]; simpl; [reflexivity | now rewrite IH].
Qed.

Lemma digit_not_whitespace (c : ascii) :
  is_decimal_digit c = true -> is_whitespace c = false.
Proof.
  unfold is_decimal_digit, is_whitespace. cbv zeta.
  generalize (nat_of_ascii c). intros n Hn.
  apply andb_true_iff in Hn as [H1 H2].
  apply Nat.leb_le in H1, H2.
  repeat (apply orb_false_iff; split);
    try (apply andb_false_iff; right; apply Nat.leb_gt; lia);
    apply Nat.eqb_neq; lia.
Qed.

(** A run of digits is one word. *)
Lemma split_words_digits (s word : string) :
  all_digits s = true ->
  split_words s word
  = match (word ++ s)%string with
    | EmptyString => []
    | _ => [(word ++ s)%string]
    end.
Proof.
  revert word. induction s as [|c s IH]; intros word Hd.
  - simpl. rewrite string_append_empty. reflexivity.
  - simpl in Hd. apply andb_true_iff in Hd as [Hc Hs].
    simpl split_words. rewrite (digit_not_whitespace c Hc), (IH _ Hs).
    rewrite string_append_assoc. reflexivity.
Qed.

Lemma tp_key_of_digits (digits : string) (c : Coordinate) :
  isdigit digits = true ->
  tp_key (("TP " ++ digits)%string, c) = int digits.
Proof.
  intros Hd. unfold tp_key, split. cbn [fst].
  assert (Hall : all_digits digits = true)
    by (destruct digits; [discriminate | exact Hd]).
  change (split_words ("TP " ++ digits) "")
    with ("TP"%string :: split_words digits "").
  rewrite (split_words_digits digits "" Hall). cbn [append].
  destruct digits as [|d rest]; [discriminate|].
  cbn [last_item last]. now rewrite Hd.
Qed.

Lemma all_digits_decimal (d : Decimal.uint) :
  all_digits (NilEmpty.string_of_uint d) = true.
Proof.
  induction d; simpl; try assumption; reflexivity.
Qed.

Lemma int_from_decimal (d : Decimal.uint) (acc : nat) :
  int_from (Z.of_nat acc) (NilEmpty.string_of_uint d)
  = Z.of_nat (Nat.of_uint_acc d acc).
Proof.
  revert acc. induction d; intros acc;
    cbn [NilEmpty.string_of_uint Nat.of_uint_acc int_from]; [reflexivity|..];
    rewrite <- IHd; f_equal; rewrite Nat.tail_mul_spec;
    match goal with
    | |- context [nat_of_ascii ?c] =>
        let v := eval vm_compute in (nat_of_ascii c) in
        change (nat_of_ascii c) with v
    end; lia.
Qed.

Lemma to_uint_not_nil (n : nat) : Nat.to_uint n <> Decimal.Nil.
Proof.
  rewrite <- (DecimalNat.Unsigned.of_to n) at 1.
  rewrite DecimalNat.Unsigned.to_of.
  unfold Decimal.unorm. destruct (Decimal.nzhead _); discriminate.
Qed.


Lemma isdigit_decimal (n : nat) :
  isdigit (NilEmpty.string_of_uint (Nat.to_uint n)) = true.
Proof.
  pose proof (all_digits_decimal (Nat.to_uint n)) as Hall.
  pose proof (to_uint_not_nil n) as Hnil.
  unfold isdigit.
  destruct (NilEmpty.string_of_uint (Nat.to_uint n)) eqn:E;
    [|exact Hall].
  destruct (Nat.to_uint n); simpl in E; try discriminate.
  contradiction.
Qed.

Lemma int_decimal (n : nat) :
  int (NilEmpty.string_of_uint (Nat.to_uint n)) = Z.of_nat n.
Proof.
  unfold int. change 0%Z with (Z.of_nat 0).
  rewrite int_from_decimal.
  change (Nat.of_uint_acc (Nat.to_uint n) 0)
    with (Nat.of_uint (Nat.to_uint n)).
  now rewrite DecimalNat.Unsigned.of_to.
Qed.

Lemma tp_key_of_decimal (n : nat) (c : Coordinate) :
  tp_key (("TP " ++ NilEmpty.string_of_uint (Nat.to_uint n))%string, c)
  = Z.of_nat n.
Proof.
  rewrite tp_key_of_digits by apply isdigit_decimal. apply int_decimal.
Qed.




(** ** The corridor projector *)



Lemma wrap_diff_range (x : R) :
  -360 < x < 360 -> -180 <= wrap_diff x <= 180.
Proof.
  intros H. unfold wrap_diff.
  destruct (Rgt_dec x 180); [lra|].
  destruct (Rlt_dec x (-180)); lra.
Qed.

Lemma wrap_diff_congruent (x : R) :
  exists k : Z, wrap_diff x = x + 360 * IZR k.
Proof.
  unfold wrap_diff.
  destruct (Rgt_dec x 180); [exists (-1)%Z; lra|].
  destruct (Rlt_dec x (-180)); [exists 1%Z; lra | exists 0%Z; lra].
Qed.

(** The wrap of the code and the normalization of the spec agree on
    every difference of two bearings but [-180]. *)
Lemma wrap_diff_normalize (x : R) :
  -360 < x < 360 -> x <> -180 -> wrap_diff x = normalize_half_open x.
Proof.
  intros Hx Hne. unfold wrap_diff, normalize_half_open.
  destruct (Rgt_dec x 180).
  - rewrite (pymod_shift (180 - x) 360 (-1)) by lra. lra.
  - destruct (Rlt_dec x (-180)).
    + rewrite (pymod_shift (180 - x) 360 1) by lra. lra.
    + rewrite pymod_small by lra. lra.
Qed.

Lemma track_bearing_interior (track : list Coordinate) (i : nat)
    (prev cur next : Coordinate) :
  nth_error track i = Some prev ->
  nth_error track (i + 1) = Some cur ->
  nth_error track (i + 2) = Some next ->
  track_bearing track (i + 1)
  = pymod (calculate_bearing prev cur
           + wrap_diff (calculate_bearing cur next
                        - calculate_bearing prev cur) / 2) 360.
Proof.
  intros Hp Hc Hn.
  assert (Hlen : (i + 2 < length track)%nat)
    by (apply nth_error_Some; congruence).
  unfold track_bearing.
  destruct (Nat.eqb_spec (i + 1) 0); [lia|].
  destruct (Nat.eqb_spec (i + 1) (length track - 1)); [lia|].
  replace (i + 1 - 1)%nat with i by lia.
  replace (i + 1 + 1)%nat with (i + 2)%nat by lia.
  rewrite (nth_error_nth _ _ origin Hp), (nth_error_nth _ _ origin Hc),
    (nth_error_nth _ _ origin Hn).
  reflexivity.
Qed.

Lemma corridor_nth (track : list Coordinate) (d : R) (i : nat) :
  (2 <= length track)%nat -> (i < length track)%nat ->
  nth_error (fst (generate_corridor_for_continuous_track track d)) i
  = Some (fst (corridor_points track d i))
  /\ nth_error (snd (generate_corridor_for_continuous_track track d)) i
     = Some (snd (corridor_points track d i)).
Proof.
  intros Hlen Hi. unfold generate_corridor_for_continuous_track.
  destruct (Nat.ltb_spec (length track) 2); [lia|].
  cbn [fst snd]. rewrite !nth_error_map.
  rewrite (nth_error_nth' _ 0%nat) by (rewrite length_seq; lia).
  rewrite seq_nth by lia. split; reflexivity.
Qed.

Lemma atan2_positive_axis (x : R) : 0 < x -> atan2 0 x = 0.
Proof.
  intros Hx. unfold atan2. destruct (Rlt_dec 0 x); [|contradiction].
  unfold Rdiv. now rewrite Rmult_0_l, atan_0.
Qed.

Lemma atan2_negative_axis (x : R) : x < 0 -> atan2 0 x = PI.
Proof.
  intros Hx. unfold atan2.
  destruct (Rlt_dec 0 x); [lra|].
  destruct (Rlt_dec x 0); [|contradiction].
  destruct (Rle_dec 0 0); [|lra].
  unfold Rdiv. rewrite Rmult_0_l, atan_0. ring.
Qed.

(** Along a meridian the bearing is 0 towards the north and 180 towards
    the south. *)
Lemma bearing_on_meridian (lon lat1 alt1 lat2 alt2 : R) :
  calculate_bearing (lon, lat1, alt1) (lon, lat2, alt2)
  = pymod (degrees (atan2 0 (sin (radians (lat2 - lat1)))) + 360) 360.
Proof.
  unfold calculate_bearing. cbv zeta.
  replace (radians lon - radians lon) with 0 by ring.
  rewrite sin_0, cos_0, Rmult_0_l.
  replace (radians (lat2 - lat1)) with (radians lat2 - radians lat1)
    by (unfold radians; field).
  rewrite sin_minus. do 4 f_equal. ring.
Qed.

Lemma bearing_due_north (lon lat1 alt1 lat2 alt2 : R) :
  lat1 < lat2 < lat1 + 180 ->
  calculate_bearing (lon, lat1, alt1) (lon, lat2, alt2) = 0.
Proof.
  intros H. pose proof PI_RGT_0 as Hpi. rewrite bearing_on_meridian.
  rewrite atan2_positive_axis.
  - unfold degrees. rewrite (pymod_shift _ 360 1); lra.
  - apply sin_gt_0; unfold radians; nra.
Qed.

Lemma bearing_due_south (lon lat1 alt1 lat2 alt2 : R) :
  lat1 - 180 < lat2 < lat1 ->
  calculate_bearing (lon, lat1, alt1) (lon, lat2, alt2) = 180.
Proof.
  intros H. pose proof PI_RGT_0 as Hpi. rewrite bearing_on_meridian.
  rewrite atan2_negative_axis.
  - unfold degrees.
    replace (PI * 180 / PI) with 180 by (field; lra).
    rewrite (pymod_shift _ 360 1); lra.
  - replace (radians (lat2 - lat1)) with (- radians (lat1 - lat2))
      by (unfold radians; field).
    rewrite sin_neg.
    assert (0 < sin (radians (lat1 - lat2)))
      by (apply sin_gt_0; unfold radians; nra).
    lra.
Qed.

(** C6 as stated fails at a reversal: flying south and straight back
    north, the difference of the bearings is exactly -180; the code
    leaves it at -180 and turns the incoming bearing 180 by -90 to the
    heading 90, where the normalization into (-180, 180] gives +180 and
    the heading 270. *)
Lemma interior_heading_counterexample :
  calculate_bearing one_degree_north origin = 180
  /\ calculate_bearing origin one_degree_north = 0
  /\ track_bearing there_and_back 1 = 90
  /\ bisector_heading (calculate_bearing one_degree_north origin)
                      (calculate_bearing origin one_degree_north) = 270
  /\ track_bearing there_and_back 1
     <> bisector_heading (calculate_bearing one_degree_north origin)
                         (calculate_bearing origin one_degree_north).
Proof.
  assert (Hin : calculate_bearing one_degree_north origin = 180)
    by (apply bearing_due_south; lra).
  assert (Hout : calculate_bearing origin one_degree_north = 0)
    by (apply bearing_due_north; lra).
  assert (Hcode : track_bearing there_and_back 1 = 90).
  { change 1%nat with (0 + 1)%nat.
    rewrite (track_bearing_interior there_and_back 0
               one_degree_north origin one_degree_north)
      by reflexivity.
    rewrite Hin, Hout. unfold wrap_diff.
    destruct (Rgt_dec (0 - 180) 180); [lra|].
    destruct (Rlt_dec (0 - 180) (-180)); [lra|].
    rewrite pymod_small; lra. }
  assert (Hspec : bisector_heading
                    (calculate_bearing one_degree_north origin)
                    (calculate_bearing origin one_degree_north) = 270).
  { rewrite Hin, Hout. unfold bisector_heading, normalize_half_open.
    rewrite (pymod_shift (180 - (0 - 180)) 360 1) by lra.
    rewrite pymod_small; lra. }
  repeat split; try assumption.
  rewrite Hcode, Hspec. lra.
Qed.

(** C6, as the code has it: at an interior index the heading is
    [incoming + signed_diff/2] modulo 360, where [signed_diff] is
    [outgoing - incoming] brought into the closed interval [-180, 180]
    by a shift of 360 when it lies strictly outside; a difference of
    exactly -180 stays -180.  For every other difference this is the
    normalization into (-180, 180].  The corridor points of the index
    are projected at that heading minus and plus 90. *)
Theorem interior_heading_bisects
    (track_coords : list Coordinate) (corridor_distance : R) (i : nat)
    (prev cur next : Coordinate) :
  nth_error track_coords i = Some prev ->
  nth_error track_coords (i + 1) = Some cur ->
  nth_error track_coords (i + 2) = Some next ->
  let incoming := calculate_bearing prev cur in
  let outgoing := calculate_bearing cur next in
  let signed_diff := wrap_diff (outgoing - incoming) in
  let heading := pymod (incoming + signed_diff / 2) 360 in
  track_bearing track_coords (i + 1) = heading
  /\ -180 <= signed_diff <= 180
  /\ (exists k : Z, signed_diff = outgoing - incoming + 360 * IZR k)
  /\ (outgoing - incoming <> -180 ->
      signed_diff = normalize_half_open (outgoing - incoming)
      /\ heading = bisector_heading incoming outgoing)
  /\ nth_error
       (fst (generate_corridor_for_continuous_track track_coords
               corridor_distance)) (i + 1)
     = Some (project_coordinate cur (pymod (heading - 90) 360)
               corridor_distance)
  /\ nth_error
       (snd (generate_corridor_for_continuous_track track_coords
               corridor_distance)) (i + 1)
     = Some (project_coordinate cur (pymod (heading + 90) 360)
               corridor_distance).
Proof.
  intros Hp Hc Hn incoming outgoing signed_diff heading.
  assert (Hlen : (i + 2 < length track_coords)%nat)
    by (apply nth_error_Some; congruence).
  pose proof (calculate_bearing_range prev cur) as Hin.
  pose proof (calculate_bearing_range cur next) as Hout.
  fold incoming in Hin. fold outgoing in Hout.
  assert (Hhead : track_bearing track_coords (i + 1) = heading)
    by (apply track_bearing_interior; assumption).
  split; [exact Hhead|].
  split; [apply wrap_diff_range; lra|].
  split; [apply wrap_diff_congruent|].
  split.
  - intros Hne.
    assert (Hsd : signed_diff = normalize_half_open (outgoing - incoming))
      by (apply wrap_diff_normalize; lra).
    split; [exact Hsd|].
    unfold heading, bisector_heading. now rewrite Hsd.
  - destruct (corridor_nth track_coords corridor_distance (i + 1))
      as [Hl Hr]; [lia | lia |].
    rewrite Hl, Hr. unfold corridor_points. cbn [fst snd].
    rewrite (nth_error_nth _ _ origin Hc), Hhead. split; reflexivity.
Qed.

Lemma interior_heading_bisects_witness :
  track_bearing [origin; one_degree_north; (0, 2, 0)] 1
  = bisector_heading (calculate_bearing origin one_degree_north)
                     (calculate_bearing one_degree_north (0, 2, 0)).
Proof.
  destruct (interior_heading_bisects
              [origin; one_degree_north; (0, 2, 0)] 300 0
              origin one_degree_north (0, 2, 0)
              eq_refl eq_refl eq_refl)
    as (Hhead & _ & _ & Hspec & _).
  cbn [Nat.add] in Hhead. rewrite Hhead. apply Hspec.
  unfold one_degree_north, origin.
  rewrite !bearing_due_north by lra. lra.
Defined.

Lemma valid_lat_nth (track : list Coordinate) (i : nat) :
  Forall valid_lat track -> valid_lat (nth i track origin).
Proof.
  intros H. destruct (Nat.lt_ge_cases i (length track)) as [Hi | Hi].
  - rewrite Forall_forall in H. now apply H, nth_In.
  - rewrite nth_overflow by assumption. apply valid_lat_origin.
Qed.

(** Past the pole: a latitude of 180 degrees is no latitude, and the
    point projected from there is not at the projected distance. *)
Lemma distance_project_invalid_latitude :
  calculate_distance (0, 180, 0) (project_coordinate (0, 180, 0) 0 300)
  = PI * earth_radius - 300.
Proof.
  pose proof PI_RGT_0 as Hpi. pose proof PI2_3_2 as Hpi3.
  pose proof earth_radius_pos as HR.
  set (delta := 300 / earth_radius).
  assert (Hdelta : 0 < delta < 1).
  { unfold delta, earth_radius. split.
    - apply Rdiv_lt_0_compat; lra.
    - apply Rmult_lt_reg_r with 6371000; [lra|].
      unfold Rdiv. rewrite Rmult_assoc, Rinv_l by lra. lra. }
  assert (Hr180 : radians 180 = PI) by (unfold radians; field).
  assert (Hr0 : radians 0 = 0) by (unfold radians; field).
  assert (Hlat2 : asin (sin PI * cos delta + cos PI * sin delta * cos 0)
                  = - delta).
  { rewrite sin_PI, cos_PI, cos_0.
    replace (0 * cos delta + -1 * sin delta * 1) with (- sin delta) by ring.
    rewrite asin_opp, asin_sin by lra. reflexivity. }
  assert (Hcos : 0 < cos delta) by (apply cos_gt_0; lra).
  unfold calculate_distance, project_coordinate. cbv zeta.
  rewrite !radians_degrees, Hr180, Hr0. fold delta.
  rewrite Hlat2.
  replace (sin 0 * sin delta * cos PI) with 0 by (rewrite sin_0; ring).
  rewrite atan2_positive_axis by (rewrite sin_PI; lra).
  unfold haversine_a. cbv zeta.
  replace ((0 + 0 - 0) / 2) with 0 by field.
  rewrite sin_0.
  assert (Hsin : sin ((- delta - PI) / 2) = - cos (delta / 2)).
  { replace ((- delta - PI) / 2) with (- (delta / 2 + PI / 2)) by field.
    rewrite sin_neg, sin_plus, sin_PI2, cos_PI2. ring. }
  rewrite Hsin.
  replace ((- cos (delta / 2)) ^ 2 + cos PI * cos (- delta) * 0 ^ 2)
    with (Rsqr (cos (delta / 2))) by (unfold Rsqr; ring).
  rewrite sqrt_Rsqr by (left; apply cos_gt_0; lra).
  rewrite <- sin_shift, asin_sin by lra.
  unfold delta. field. unfold earth_radius. lra.
Qed.

(** C1 as stated fails for a corridor distance that no great-circle
    distance can equal.  A negative distance projects to the other side
    and the point lies at the absolute value: with -300 the left point
    is 300 m away, 600 m off the claimed value.  A distance above half
    the circumference of the sphere is out of reach as well.  It also
    fails for a coordinate whose latitude is not between the poles. *)
Lemma corridor_offset_counterexample :
  calculate_distance origin (project_coordinate origin 0 (-300)) = 300
  /\ (exists left_point,
         nth_error
           (fst (generate_corridor_for_continuous_track
                   [origin; one_degree_north] (-300))) 0
         = Some left_point
         /\ calculate_distance origin left_point = 300
         /\ ~ Rabs (calculate_distance origin left_point - (-300)) < 1 / 2)
  /\ calculate_distance origin (project_coordinate origin 0 30000000)
     <> 30000000
  /\ calculate_distance (0, 180, 0)
       (project_coordinate (0, 180, 0) 0 300) <> 300.
Proof.
  assert (Habs : Rabs (-300) = 300)
    by (rewrite Rabs_left by lra; lra).
  assert (Hreach : Rabs (-300) <= PI * earth_radius).
  { rewrite Habs. pose proof half_circle_large.
    unfold earth_radius in *. lra. }
  split; [|split; [|split]].
  - rewrite distance_project_abs by (try apply valid_lat_origin; exact Hreach).
    exact Habs.
  - destruct (corridor_nth [origin; one_degree_north] (-300) 0)
      as [Hl _]; [simpl; lia | simpl; lia |].
    eexists. split; [exact Hl|].
    unfold corridor_points. cbn [fst nth].
    rewrite distance_project_abs
      by (try apply valid_lat_origin; exact Hreach).
    split; [exact Habs|].
    rewrite Habs. rewrite Rabs_pos_eq by lra. lra.
  - pose proof (calculate_distance_upper origin
                  (project_coordinate origin 0 30000000)) as Hup.
    pose proof PI_4. unfold earth_radius in Hup. nra.
  - rewrite distance_project_invalid_latitude.
    pose proof half_circle_large. unfold earth_radius in *. lra.
Qed.

(** C1, as the code has it: for a corridor distance between 0 and half
    the circumference of the sphere, and coordinates with a latitude
    between -90 and 90 degrees, the point projected from [p] lies at
    exactly that great-circle distance from [p], on every bearing; so do
    the left and the right corridor point of every index of a track of
    at least two points, which is within any positive tolerance. *)
Theorem corridor_offset_exact (corridor_distance : R) :
  0 <= corridor_distance <= PI * earth_radius ->
  (forall p bearing_deg,
      valid_lat p ->
      calculate_distance p
        (project_coordinate p bearing_deg corridor_distance)
      = corridor_distance)
  /\ (forall track_coords i,
         (2 <= length track_coords)%nat ->
         Forall valid_lat track_coords ->
         (i < length track_coords)%nat ->
         exists left_point right_point,
           nth_error
             (fst (generate_corridor_for_continuous_track track_coords
                     corridor_distance)) i = Some left_point
           /\ nth_error
                (snd (generate_corridor_for_continuous_track track_coords
                        corridor_distance)) i = Some right_point
           /\ calculate_distance (nth i track_coords origin) left_point
              = corridor_distance
           /\ calculate_distance (nth i track_coords origin) right_point
              = corridor_distance
           /\ Rabs (calculate_distance (nth i track_coords origin) left_point
                    - corridor_distance) < 1 / 2
           /\ Rabs (calculate_distance (nth i track_coords origin) right_point
                    - corridor_distance) < 1 / 2).
Proof.
  intros Hd. split.
  - intros p b Hp. now apply distance_project.
  - intros track i Hlen Hvalid Hi.
    destruct (corridor_nth track corridor_distance i Hlen Hi) as [Hl Hr].
    pose proof (valid_lat_nth track i Hvalid) as Hp.
    exists (fst (corridor_points track corridor_distance i)),
           (snd (corridor_points track corridor_distance i)).
    unfold corridor_points in *. cbn [fst snd] in *.
    rewrite !distance_project by assumption.
    replace (corridor_distance - corridor_distance) with 0 by ring.
    rewrite Rabs_R0. repeat split; try assumption; lra.
Qed.

Lemma corridor_offset_exact_witness :
  exists left_point right_point,
    nth_error
      (fst (generate_corridor_for_continuous_track
              [origin; one_degree_north; (0, 2, 0)] 300)) 1
    = Some left_point
    /\ nth_error
         (snd (generate_corridor_for_continuous_track
                 [origin; one_degree_north; (0, 2, 0)] 300)) 1
       = Some right_point
    /\ calculate_distance one_degree_north left_point = 300
    /\ calculate_distance one_degree_north right_point = 300.
Proof.
  assert (Hd : 0 <= 300 <= PI * earth_radius).
  { pose proof half_circle_large. unfold earth_radius in *. lra. }
  destruct (corridor_offset_exact 300 Hd) as [_ Htrack].
  destruct (Htrack [origin; one_degree_north; (0, 2, 0)] 1%nat)
    as (l & r & Hl & Hr & Hdl & Hdr & _).
  - simpl. lia.
  - repeat constructor; unfold valid_lat, origin, one_degree_north; lra.
  - simpl. lia.
  - exists l, r. repeat split; assumption.
Defined.

(** * Further properties of the engine *)

(** ** Geodesic math *)

(** X1: the distance is symmetric, and the altitudes play no part in
    it. *)
Theorem calculate_distance_symmetric (a b : Coordinate) (alt1 alt2 : R) :
  calculate_distance a b = calculate_distance b a
  /\ calculate_distance (fst a, alt1) (fst b, alt2) = calculate_distance a b.
Proof.
  split; [apply calculate_distance_symmetric_aux|].
  destruct a as [[lon1 lat1] a1], b as [[lon2 lat2] a2]. reflexivity.
Qed.



Lemma atan2_range (y x : R) : - PI < atan2 y x <= PI.
Proof.
  pose proof PI_RGT_0 as Hpi. unfold atan2.
  destruct (Rlt_dec 0 x) as [Hx | Hx].
  - pose proof (atan_bound (y / x)). lra.
  - destruct (Rlt_dec x 0) as [Hx' | Hx'].
    + pose proof (atan_bound (y / x)) as Hb.
      destruct (Rle_dec 0 y) as [Hy | Hy].
      * assert (atan (y / x) <= 0).
        { rewrite <- atan_0. destruct Hy as [Hy | <-].
          - left. apply atan_increasing.
            apply Ropp_lt_cancel. rewrite Ropp_0.
            replace (- (y / x)) with (y / - x) by (field; lra).
            apply Rdiv_lt_0_compat; lra.
          - right. f_equal. unfold Rdiv. ring. }
        lra.
      * assert (0 < atan (y / x)).
        { rewrite <- atan_0. apply atan_increasing.
          replace (y / x) with (- y / - x) by (field; lra).
          apply Rdiv_lt_0_compat; lra. }
        lra.
    + destruct (Rlt_dec 0 y); [lra|].
      destruct (Rlt_dec y 0); lra.
Qed.




Section ProjectedBearing.

Variables phi delta theta : R.
Hypothesis cos_phi_pos : 0 < cos phi.

Let s := sin phi * cos delta + cos phi * sin delta * cos theta.
Let u := cos phi * cos delta - sin phi * sin delta * cos theta.
Let v := sin theta * sin delta.



End ProjectedBearing.




(** X3: a distance lies between 0 and half the circumference of the
    sphere, and a point is at distance 0 from itself. *)
Theorem calculate_distance_bounds (a b : Coordinate) :
  0 <= calculate_distance a b <= PI * earth_radius
  /\ calculate_distance a a = 0.
Proof.
  split; [split|].
  - apply calculate_distance_nonneg.
  - apply calculate_distance_upper.
  - apply calculate_distance_same.
Qed.

(** X4: a bearing lies in [0, 360), and the bearing from a point to
    itself, where no direction exists, is 0. *)
Theorem calculate_bearing_bounds (a b : Coordinate) :
  0 <= calculate_bearing a b < 360
  /\ calculate_bearing a a = 0.
Proof.
  split; [apply calculate_bearing_range|].
  destruct a as [[lon lat] alt]. rewrite bearing_on_meridian.
  replace (radians (lat - lat)) with 0 by (unfold radians; field).
  rewrite sin_0.
  assert (Hzero : atan2 0 0 = 0).
  { unfold atan2. repeat (destruct (Rlt_dec _ _); try lra). }
  rewrite Hzero. unfold degrees.
  rewrite (pymod_shift _ 360 1); lra.
Qed.

(** X5: projecting by the distance 0 gives the point back, on every
    bearing. *)
Theorem project_coordinate_zero (p : Coordinate) (bearing_deg : R) :
  valid_lat p -> project_coordinate p bearing_deg 0 = p.
Proof.
  destruct p as [[lon lat] alt]. unfold valid_lat. intros Hlat.
  pose proof PI_RGT_0 as Hpi.
  unfold project_coordinate. cbv zeta.
  replace (0 / earth_radius) with 0 by (unfold Rdiv; ring).
  rewrite sin_0, cos_0.
  replace (sin (radians lat) * 1
           + cos (radians lat) * 0 * cos (radians bearing_deg))
    with (sin (radians lat)) by ring.
  rewrite asin_sin by (unfold radians; split; nra).
  replace (sin (radians bearing_deg) * 0 * cos (radians lat)) with 0 by ring.
  assert (Hlon : atan2 0 (1 - sin (radians lat) * sin (radians lat)) = 0).
  { pose proof (sin_cos_sqr (radians lat)) as Hunit.
    pose proof (pow2_ge_0 (cos (radians lat))) as Hc.
    destruct Hc as [Hc | Hc].
    - apply atan2_positive_axis. lra.
    - replace (1 - sin (radians lat) * sin (radians lat)) with 0 by lra.
      unfold atan2. repeat (destruct (Rlt_dec _ _); try lra). }
  rewrite Hlon, Rplus_0_r.
  assert (Hround : forall x, degrees (radians x) = x)
    by (intros x; unfold degrees, radians; field; lra).
  now rewrite !Hround.
Qed.

Lemma project_coordinate_zero_witness :
  project_coordinate (14, 50, 300) 45 0 = (14, 50, 300).
Proof.
  apply project_coordinate_zero. unfold valid_lat. lra.
Defined.

Lemma bearing_meridian_cases (lon lat1 alt1 lat2 alt2 : R) :
  -90 <= lat1 <= 90 -> -90 <= lat2 <= 90 ->
  (lat1 < lat2 ->
   calculate_bearing (lon, lat1, alt1) (lon, lat2, alt2) = 0)
  /\ (lat2 < lat1 -> lat1 - lat2 < 180 ->
      calculate_bearing (lon, lat1, alt1) (lon, lat2, alt2) = 180).
Proof.
  intros H1 H2.
  assert (Hflat : forall d, sin (radians d) = 0 ->
            pymod (degrees (atan2 0 (sin (radians d))) + 360) 360 = 0).
  { intros d ->.
    assert (Hzero : atan2 0 0 = 0)
      by (unfold atan2; repeat (destruct (Rlt_dec _ _); try lra)).
    rewrite Hzero. unfold degrees.
    pose proof PI_RGT_0. rewrite (pymod_shift _ 360 1); lra. }
  split.
  - intros Hlt. destruct (Req_dec (lat2 - lat1) 180) as [E | Hne].
    + rewrite bearing_on_meridian. apply Hflat.
      rewrite E. unfold radians.
      replace (180 * PI / 180) with PI by field. apply sin_PI.
    + apply bearing_due_north. lra.
  - intros Hlt Hfar. apply bearing_due_south. lra.
Qed.

(** X6: between two points of one meridian, with latitudes in
    [-90, 90] and less than 180 degrees apart, the bearing is 0 when the
    second point lies to the north of the first and 180 when it lies to
    the south. *)
Theorem bearing_along_meridian (lon lat1 alt1 lat2 alt2 : R) :
  -90 <= lat1 <= 90 -> -90 <= lat2 <= 90 ->
  (lat1 < lat2 -> lat2 - lat1 < 180 ->
   calculate_bearing (lon, lat1, alt1) (lon, lat2, alt2) = 0)
  /\ (lat2 < lat1 -> lat1 - lat2 < 180 ->
      calculate_bearing (lon, lat1, alt1) (lon, lat2, alt2) = 180).
Proof.
  intros H1 H2.
  destruct (bearing_meridian_cases lon lat1 alt1 lat2 alt2 H1 H2)
    as [Hn Hs].
  split; [intros Hlt _; now apply Hn | exact Hs].
Qed.

Lemma bearing_along_meridian_witness :
  calculate_bearing (14, 49, 0) (14, 50, 0) = 0
  /\ calculate_bearing (14, 50, 0) (14, 49, 0) = 180.
Proof.
  destruct (bearing_along_meridian 14 49 0 50 0) as (Hn & _); [lra..|].
  destruct (bearing_along_meridian 14 50 0 49 0) as (_ & Hs); [lra..|].
  split; [apply Hn | apply Hs]; lra.
Defined.

(** ** The corridor projector *)

Lemma project_coordinate_altitude (p : Coordinate) (b d : R) :
  altitude (project_coordinate p b d) = altitude p.
Proof.
  destruct p as [[lon lat] alt]. reflexivity.
Qed.

(** X7: the two corridor lines are aligned with the track, index by
    index: a track of fewer than two points has no corridor; otherwise
    each line has one point per track point, and that point carries the
    altitude of its track point. *)
Theorem corridor_aligned_with_track
    (track_coords : list Coordinate) (corridor_distance : R) :
  ((length track_coords < 2)%nat ->
   generate_corridor_for_continuous_track track_coords corridor_distance
   = ([], []))
  /\ ((2 <= length track_coords)%nat ->
      length (fst (generate_corridor_for_continuous_track track_coords
                     corridor_distance)) = length track_coords
      /\ length (snd (generate_corridor_for_continuous_track track_coords
                        corridor_distance)) = length track_coords
      /\ forall i left_point right_point,
           nth_error (fst (generate_corridor_for_continuous_track
                             track_coords corridor_distance)) i
           = Some left_point ->
           nth_error (snd (generate_corridor_for_continuous_track
                             track_coords corridor_distance)) i
           = Some right_point ->
           altitude left_point = altitude (nth i track_coords origin)
           /\ altitude right_point = altitude (nth i track_coords origin)).
Proof.
  split.
  - intros Hshort. unfold generate_corridor_for_continuous_track.
    destruct (Nat.ltb_spec (length track_coords) 2); [reflexivity | lia].
  - intros Hlen.
    assert (Hl : length (fst (generate_corridor_for_continuous_track
                                track_coords corridor_distance))
                 = length track_coords).
    { unfold generate_corridor_for_continuous_track.
      destruct (Nat.ltb_spec (length track_coords) 2); [lia|].
      cbn [fst]. now rewrite !length_map, length_seq. }
    assert (Hr : length (snd (generate_corridor_for_continuous_track
                                track_coords corridor_distance))
                 = length track_coords).
    { unfold generate_corridor_for_continuous_track.
      destruct (Nat.ltb_spec (length track_coords) 2); [lia|].
      cbn [snd]. now rewrite !length_map, length_seq. }
    split; [exact Hl|]. split; [exact Hr|].
    intros i l r Hil Hir.
    assert (Hi : (i < length track_coords)%nat)
      by (rewrite <- Hl; apply nth_error_Some; congruence).
    destruct (corridor_nth track_coords corridor_distance i Hlen Hi)
      as [El Er].
    rewrite El in Hil. rewrite Er in Hir.
    injection Hil as <-. injection Hir as <-.
    unfold corridor_points. cbn [fst snd].
    split; apply project_coordinate_altitude.
Qed.

Lemma corridor_aligned_with_track_witness :
  generate_corridor_for_continuous_track [origin] 300 = ([], [])
  /\ length (fst (generate_corridor_for_continuous_track
                    [origin; one_degree_north] 300)) = 2%nat.
Proof.
  split.
  - apply (proj1 (corridor_aligned_with_track [origin] 300)).
    simpl. lia.
  - apply (proj2 (corridor_aligned_with_track [origin; one_degree_north]
                    300)).
    simpl. lia.
Defined.






Lemma northbound_leg (track : list Coordinate) (i : nat) :
  northbound track -> (i + 1 < length track)%nat ->
  calculate_bearing (nth i track origin) (nth (i + 1) track origin) = 0.
Proof.
  intros [Hvalid Hnorth] Hi.
  destruct (Hnorth i Hi) as [Hlon Hlat].
  pose proof (valid_lat_nth track i Hvalid) as H1.
  pose proof (valid_lat_nth track (i + 1) Hvalid) as H2.
  destruct (nth i track origin) as [[lon1 lat1] alt1].
  destruct (nth (i + 1) track origin) as [[lon2 lat2] alt2].
  cbn [fst snd] in Hlon, Hlat. subst lon2. unfold valid_lat in H1, H2.
  destruct (bearing_meridian_cases lon1 lat1 alt1 lat2 alt2 H1 H2)
    as [Hn _].
  now apply Hn.
Qed.

Lemma northbound_heading (track : list Coordinate) (i : nat) :
  northbound track -> (2 <= length track)%nat -> (i < length track)%nat ->
  track_bearing track i = 0.
Proof.
  intros Hnorth Hlen Hi. unfold track_bearing.
  destruct (Nat.eqb_spec i 0) as [-> | Hne].
  - apply (northbound_leg track 0 Hnorth). lia.
  - assert (Hin : calculate_bearing (nth (i - 1) track origin)
                                    (nth i track origin) = 0).
    { replace i with (i - 1 + 1)%nat at 2 by lia.
      apply northbound_leg; [assumption | lia]. }
    destruct (Nat.eqb_spec i (length track - 1)); [exact Hin|].
    rewrite Hin, northbound_leg by (try assumption; lia).
    unfold wrap_diff.
    destruct (Rgt_dec (0 - 0) 180); [lra|].
    destruct (Rlt_dec (0 - 0) (-180)); [lra|].
    rewrite pymod_small; lra.
Qed.

(** X9: along a track that runs north on one meridian the heading is 0
    at every point, and the corridor is the track moved west and east:
    the left point is projected on the bearing 270 and the right point
    on the bearing 90. *)
Theorem northbound_corridor
    (track_coords : list Coordinate) (corridor_distance : R) (i : nat) :
  northbound track_coords ->
  (2 <= length track_coords)%nat ->
  (i < length track_coords)%nat ->
  track_bearing track_coords i = 0
  /\ nth_error (fst (generate_corridor_for_continuous_track track_coords
                       corridor_distance)) i
     = Some (project_coordinate (nth i track_coords origin) 270
               corridor_distance)
  /\ nth_error (snd (generate_corridor_for_continuous_track track_coords
                       corridor_distance)) i
     = Some (project_coordinate (nth i track_coords origin) 90
               corridor_distance).
Proof.
  intros Hnorth Hlen Hi.
  pose proof (northbound_heading track_coords i Hnorth Hlen Hi) as Hhead.
  destruct (corridor_nth track_coords corridor_distance i Hlen Hi)
    as [Hl Hr].
  split; [exact Hhead|].
  rewrite Hl, Hr. unfold corridor_points. cbn [fst snd]. rewrite Hhead.
  rewrite (pymod_shift (0 - 90) 360 (-1)) by lra.
  rewrite (pymod_small (0 + 90) 360) by lra.
  split; do 2 f_equal; lra.
Qed.

Lemma northbound_corridor_witness :
  nth_error (fst (generate_corridor_for_continuous_track
                    [origin; one_degree_north; (0, 2, 0)] 300)) 1
  = Some (project_coordinate one_degree_north 270 300).
Proof.
  apply (northbound_corridor [origin; one_degree_north; (0, 2, 0)] 300 1).
  - split.
    + repeat constructor; unfold valid_lat, origin, one_degree_north; lra.
    + intros i Hi. simpl in Hi.
      destruct i as [|[|i]]; [| |lia];
        unfold origin, one_degree_north; simpl; split; lra.
  - simpl. lia.
  - simpl. lia.
Defined.

Lemma projected_valid_lat (p : Coordinate) (b d : R) :
  valid_lat (project_coordinate p b d).
Proof.
  destruct p as [[lon lat] alt].
  unfold project_coordinate, valid_lat. cbv zeta.
  pose proof PI_RGT_0 as Hpi.
  match goal with |- -90 <= degrees (asin ?x) <= 90 =>
    pose proof (asin_bound x) as Hb end.
  unfold degrees.
  split; apply Rmult_le_reg_r with PI; try lra;
    unfold Rdiv; rewrite Rmult_assoc, Rinv_l by lra; lra.
Qed.

(** X10: whatever the point, the bearing and the distance, the projected
    point has a latitude between -90 and 90 degrees and the altitude of
    the point it is projected from. *)
Theorem project_coordinate_well_formed (p : Coordinate) (b d : R) :
  valid_lat (project_coordinate p b d)
  /\ altitude (project_coordinate p b d) = altitude p.
Proof.
  split; [apply projected_valid_lat | apply project_coordinate_altitude].
Qed.

(** ** The locators *)

Lemma legs_length_app (track : list Coordinate) (pre post : list nat) :
  legs_length track (pre ++ post)
  = legs_length track pre + legs_length track post.
Proof.
  induction pre as [|i pre IH]; simpl; [lra|]. rewrite IH. lra.
Qed.

Lemma legs_length_seq_succ (track : list Coordinate) (a n : nat) :
  legs_length track (seq a (S n))
  = legs_length track (seq a n)
    + calculate_distance (nth (a + n) track origin)
                         (nth (a + n + 1) track origin).
Proof.
  rewrite seq_S, legs_length_app. simpl. lra.
Qed.

(** The walk over the legs [a, a+1, ...]: a target between 0 and their
    summed length is met on one of them. *)
Lemma walk_legs_meets (track : list Coordinate) (n a : nat) (remaining : R) :
  (1 <= n)%nat ->
  0 <= remaining <= legs_length track (seq a n) ->
  exists j,
    (j < n)%nat
    /\ walk_legs track (seq a n) remaining
       = Some (project_coordinate (nth (a + j) track origin)
                 (calculate_bearing (nth (a + j) track origin)
                                    (nth (a + j + 1) track origin))
                 (remaining - legs_length track (seq a j)),
               calculate_bearing (nth (a + j) track origin)
                                 (nth (a + j + 1) track origin))
    /\ 0 <= remaining - legs_length track (seq a j)
       <= calculate_distance (nth (a + j) track origin)
                             (nth (a + j + 1) track origin).
Proof.
  revert a remaining. induction n as [|n IH]; intros a remaining Hn Hr; [lia|].
  simpl seq in *. simpl legs_length in Hr. simpl walk_legs.
  destruct (Rle_dec remaining _) as [Hle | Hgt].
  - exists 0%nat. rewrite !Nat.add_0_r. simpl seq. simpl legs_length.
    rewrite Rminus_0_r. split; [lia|]. split; [reflexivity | lra].
  - assert (Hn' : (1 <= n)%nat).
    { destruct n; [|lia]. simpl in Hr. lra. }
    destruct (IH (S a) (remaining
                        - calculate_distance (nth a track origin)
                            (nth (a + 1) track origin)) Hn')
      as (j & Hj & Hwalk & Hrange); [lra|].
    exists (S j). split; [lia|].
    replace (a + S j)%nat with (S a + j)%nat by lia.
    rewrite Hwalk. simpl seq. simpl legs_length.
    split; [do 3 f_equal; lra | lra].
Qed.

(** X11: a target between 0 and the length of the track in front of the
    start index is met on a leg [k]: the locator returns the point
    projected from the start of leg [k] along the bearing of the leg by
    what is left of the target after the legs before [k], together with
    that bearing; what is left lies between 0 and the length of leg [k].
    When the latitude of the start of leg [k] lies in [-90, 90], the
    lengths of the legs before [k] and the distance from the start of
    leg [k] to the point add up to the target, and the point is no
    farther from the start of the leg than its end is. *)
Theorem locator_interpolates
    (track_coords : list Coordinate) (start_index : nat)
    (target_distance_m : R) :
  (start_index + 1 < length track_coords)%nat ->
  0 <= target_distance_m
  <= legs_length track_coords
       (range start_index (length track_coords - 1)) ->
  exists k point,
    (start_index <= k)%nat /\ (k + 1 < length track_coords)%nat
    /\ point_at_distance_along_track track_coords start_index
         target_distance_m
       = Some (point,
               calculate_bearing (nth k track_coords origin)
                                 (nth (k + 1) track_coords origin))
    /\ point
       = project_coordinate (nth k track_coords origin)
           (calculate_bearing (nth k track_coords origin)
                              (nth (k + 1) track_coords origin))
           (target_distance_m
            - legs_length track_coords (range start_index k))
    /\ 0 <= target_distance_m
            - legs_length track_coords (range start_index k)
       <= calculate_distance (nth k track_coords origin)
                             (nth (k + 1) track_coords origin)
    /\ (valid_lat (nth k track_coords origin) ->
        legs_length track_coords (range start_index k)
        + calculate_distance (nth k track_coords origin) point
        = target_distance_m
        /\ calculate_distance (nth k track_coords origin) point
           <= calculate_distance (nth k track_coords origin)
                                 (nth (k + 1) track_coords origin)).
Proof.
  intros Hstart Htarget. unfold range in *.
  destruct (walk_legs_meets track_coords
              (length track_coords - 1 - start_index) start_index
              target_distance_m ltac:(lia) Htarget)
    as (j & Hj & Hwalk & Hrange).
  exists (start_index + j)%nat. eexists.
  split; [lia|]. split; [lia|].
  replace (start_index + j - start_index)%nat with j by lia.
  split; [|split; [reflexivity|split; [exact Hrange|]]].
  - unfold point_at_distance_along_track.
    destruct (Z.geb_spec (Z.of_nat start_index)
                (Z.of_nat (length track_coords) - 1)); [lia|].
    unfold range. now rewrite Hwalk.
  - intros Hvalid. rewrite distance_project.
    + split; lra.
    + exact Hvalid.
    + pose proof (calculate_distance_upper
                    (nth (start_index + j) track_coords origin)
                    (nth (start_index + j + 1) track_coords origin)).
      lra.
Qed.

Lemma locator_interpolates_witness :
  exists k point,
    (0 <= k)%nat /\ (k + 1 < 2)%nat
    /\ point_at_distance_along_track [origin; north_of_origin 1000] 0 500
       = Some (point,
               calculate_bearing
                 (nth k [origin; north_of_origin 1000] origin)
                 (nth (k + 1) [origin; north_of_origin 1000] origin))
    /\ calculate_distance (nth k [origin; north_of_origin 1000] origin)
         point <= 500.
Proof.
  assert (Hnorth : valid_lat (north_of_origin 1000))
    by apply projected_valid_lat.
  destruct (locator_interpolates [origin; north_of_origin 1000] 0 500)
    as (k & point & Hk & Hk' & Hat & _ & _ & Hdistance).
  - simpl. lia.
  - cbn [legs_length range seq length Nat.sub Nat.add nth].
    rewrite (distance_north_of_origin 1000) by lra. lra.
  - exists k, point. repeat split; try assumption.
    assert (Hvalid : valid_lat (nth k [origin; north_of_origin 1000] origin)).
    { apply valid_lat_nth. constructor; [apply valid_lat_origin|].
      constructor; [exact Hnorth | constructor]. }
    destruct (Hdistance Hvalid) as [Hsum _].
    pose proof (legs_length_nonneg [origin; north_of_origin 1000]
                  (range 0 k)).
    lra.
Defined.

(** The loop of [measure_distance_along_track] over the legs
    [a, a+1, ...], entered with the distance [c] behind it: it stops
    behind the first leg with which the distance reaches the target. *)
Lemma measure_legs_first (track : list Coordinate) (n a : nat)
    (c target : R) :
  match measure_legs track (seq a n) c target with
  | Some reached =>
      (a < reached <= a + n)%nat
      /\ target <= c + legs_length track (seq a (reached - a))
      /\ forall j, (a < j < reached)%nat ->
                   c + legs_length track (seq a (j - a)) < target
  | None =>
      forall j, (a < j <= a + n)%nat ->
                c + legs_length track (seq a (j - a)) < target
  end.
Proof.
  revert a c. induction n as [|n IH]; intros a c.
  - simpl. intros j Hj. lia.
  - simpl seq. simpl measure_legs.
    set (d := calculate_distance (nth a track origin)
                                 (nth (a + 1) track origin)).
    assert (Hsplit : forall j, (a < j)%nat ->
              c + legs_length track (seq a (j - a))
              = c + d + legs_length track (seq (S a) (j - S a))).
    { intros j Hj. replace (j - a)%nat with (S (j - S a)) by lia.
      simpl. fold d. lra. }
    destruct (Rge_dec (c + d) target) as [Hge | Hlt].
    + split; [lia|]. split.
      * replace (a + 1 - a)%nat with 1%nat by lia. simpl. fold d. lra.
      * intros j Hj. lia.
    + specialize (IH (S a) (c + d)).
      destruct (measure_legs track (seq (S a) n) (c + d) target)
        as [reached|].
      * destruct IH as (Hr & Hreach & Hfirst).
        split; [lia|]. split.
        -- rewrite Hsplit by lia. exact Hreach.
        -- intros j Hj. rewrite Hsplit by lia.
           destruct (Nat.eq_dec j (S a)) as [-> | Hne].
           ++ rewrite Nat.sub_diag. simpl. lra.
           ++ apply Hfirst. lia.
      * intros j Hj. rewrite Hsplit by lia.
        destruct (Nat.eq_dec j (S a)) as [-> | Hne].
        -- rewrite Nat.sub_diag. simpl. lra.
        -- apply IH. lia.
Qed.

(** X12: [measure_distance_along_track] returns [None] exactly for a
    start index that is no position of the track.  Otherwise it returns
    a position of the track: the first one behind the start index at
    which the summed leg lengths reach the target, or the last position
    when they never do (the start index itself when it is the last). *)
Theorem measure_distance_along_track_first_reach
    (track_coords : list Coordinate) (start_index : nat)
    (target_distance : R) :
  (measure_distance_along_track track_coords start_index target_distance
   = None <-> (length track_coords <= start_index)%nat)
  /\ (forall reached,
         measure_distance_along_track track_coords start_index
           target_distance = Some reached ->
         (start_index <= reached < length track_coords)%nat
         /\ (forall j, (start_index < j < reached)%nat ->
                       legs_length track_coords (range start_index j)
                       < target_distance)
         /\ ((start_index < reached)%nat
             /\ target_distance
                <= legs_length track_coords (range start_index reached)
             \/ reached = (length track_coords - 1)%nat
                /\ forall j, (start_index < j < length track_coords)%nat ->
                             legs_length track_coords (range start_index j)
                             < target_distance)).
Proof.
  unfold measure_distance_along_track, range.
  destruct (Nat.leb_spec (length track_coords) start_index) as [Hout | Hin].
  - split; [tauto | discriminate].
  - split; [split; [destruct (measure_legs _ _ _ _); discriminate | lia]|].
    intros reached.
    pose proof (measure_legs_first track_coords
                  (length track_coords - 1 - start_index) start_index
                  0 target_distance) as Hloop.
    destruct (measure_legs track_coords _ 0 target_distance) as [r|].
    + intros H. cbv iota beta in H. injection H as <-.
      destruct Hloop as (Hr & Hreach & Hfirst).
      split; [lia|]. split.
      * intros j Hj. specialize (Hfirst j Hj). lra.
      * left. split; [lia | lra].
    + intros H. cbv iota beta in H. injection H as <-.
      split; [lia|]. split.
      * intros j Hj. specialize (Hloop j ltac:(lia)). lra.
      * right. split; [reflexivity|].
        intros j Hj. specialize (Hloop j ltac:(lia)). lra.
Qed.

Lemma measure_distance_along_track_first_reach_witness :
  measure_distance_along_track [origin; north_of_origin 1000] 0 500
  = Some 1%nat
  /\ (0 <= 1 < 2)%nat.
Proof.
  assert (Hreach : measure_distance_along_track
                     [origin; north_of_origin 1000] 0 500 = Some 1%nat).
  { unfold measure_distance_along_track, range.
    cbn [length Nat.leb Nat.sub seq measure_legs nth Nat.add].
    rewrite (distance_north_of_origin 1000) by lra.
    destruct (Rge_dec (0 + 1000) 500); [reflexivity | lra]. }
  split; [exact Hreach|].
  destruct (measure_distance_along_track_first_reach
              [origin; north_of_origin 1000] 0 500) as [_ Hsome].
  apply (Hsome 1%nat Hreach).
Defined.

(** ** The markers *)

(** X13: the index-based marker is the line of the two points at the
    given index of the two lines it is handed, left first, and it is
    empty when the index is beyond the end of either line.  Handed the
    two corridor lines of a track of at least two points and an index of
    that track, it is the line of the left and the right corridor point
    of that index; when moreover the latitude of the track point of that
    index lies in [-90, 90] and the corridor distance lies between 0 and
    half a great circle (pi times the Earth radius), each of the two
    points lies at the corridor distance from the track point.  Handed
    the corridor lines of a shorter track, or an index beyond the track,
    it is empty. *)
Theorem index_marker_joins_corridor
    (track_coords : list Coordinate) (corridor_distance : R)
    (track_index : nat) :
  (forall left_corridor right_corridor left_point right_point,
      nth_error left_corridor track_index = Some left_point ->
      nth_error right_corridor track_index = Some right_point ->
      create_perpendicular_marker track_coords left_corridor right_corridor
        track_index
      = [left_point; right_point])
  /\ (forall left_corridor right_corridor,
         (length left_corridor <= track_index)%nat
         \/ (length right_corridor <= track_index)%nat ->
         create_perpendicular_marker track_coords left_corridor
           right_corridor track_index
         = [])
  /\ ((2 <= length track_coords)%nat ->
      (track_index < length track_coords)%nat ->
      exists left_point right_point,
        nth_error
          (fst (generate_corridor_for_continuous_track track_coords
                  corridor_distance)) track_index
        = Some left_point
        /\ nth_error
             (snd (generate_corridor_for_continuous_track track_coords
                     corridor_distance)) track_index
           = Some right_point
        /\ create_perpendicular_marker track_coords
             (fst (generate_corridor_for_continuous_track track_coords
                     corridor_distance))
             (snd (generate_corridor_for_continuous_track track_coords
                     corridor_distance))
             track_index
           = [left_point; right_point]
        /\ (valid_lat (nth track_index track_coords origin) ->
            0 <= corridor_distance <= PI * earth_radius ->
            calculate_distance (nth track_index track_coords origin)
              left_point
            = corridor_distance
            /\ calculate_distance (nth track_index track_coords origin)
                 right_point
               = corridor_distance))
  /\ ((length track_coords < 2)%nat
      \/ (length track_coords <= track_index)%nat ->
      create_perpendicular_marker track_coords
        (fst (generate_corridor_for_continuous_track track_coords
                corridor_distance))
        (snd (generate_corridor_for_continuous_track track_coords
                corridor_distance))
        track_index
      = []).
Proof.
  assert (Hpoints : forall left_corridor right_corridor left_point right_point,
            nth_error left_corridor track_index = Some left_point ->
            nth_error right_corridor track_index = Some right_point ->
            create_perpendicular_marker track_coords left_corridor
              right_corridor track_index
            = [left_point; right_point]).
  { intros left_corridor right_corridor left_point right_point El Er.
    unfold create_perpendicular_marker.
    assert (Hl : (track_index < length left_corridor)%nat)
      by (apply nth_error_Some; congruence).
    assert (Hr : (track_index < length right_corridor)%nat)
      by (apply nth_error_Some; congruence).
    destruct (Nat.leb_spec (length left_corridor) track_index); [lia|].
    destruct (Nat.leb_spec (length right_corridor) track_index); [lia|].
    cbn [orb]. cbv zeta.
    now rewrite (nth_error_nth _ _ origin El), (nth_error_nth _ _ origin Er). }
  assert (Hbeyond : forall left_corridor right_corridor,
            (length left_corridor <= track_index)%nat
            \/ (length right_corridor <= track_index)%nat ->
            create_perpendicular_marker track_coords left_corridor
              right_corridor track_index
            = []).
  { intros left_corridor right_corridor Hout.
    unfold create_perpendicular_marker.
    destruct (Nat.leb_spec (length left_corridor) track_index);
      [reflexivity|].
    destruct (Nat.leb_spec (length right_corridor) track_index);
      [reflexivity | lia]. }
  assert (Hlens : (2 <= length track_coords)%nat ->
            length (fst (generate_corridor_for_continuous_track
                           track_coords corridor_distance))
            = length track_coords
            /\ length (snd (generate_corridor_for_continuous_track
                              track_coords corridor_distance))
               = length track_coords).
  { intros Hlen. unfold generate_corridor_for_continuous_track.
    destruct (Nat.ltb_spec (length track_coords) 2); [lia|].
    cbn [fst snd]. now rewrite !length_map, length_seq. }
  split; [exact Hpoints|]. split; [exact Hbeyond|]. split.
  - intros Hlen Hi.
    destruct (corridor_nth track_coords corridor_distance track_index
                Hlen Hi) as [El Er].
    exists (fst (corridor_points track_coords corridor_distance track_index)),
      (snd (corridor_points track_coords corridor_distance track_index)).
    split; [exact El|]. split; [exact Er|].
    split; [now apply Hpoints|].
    intros Hvalid Hd. unfold corridor_points. cbn [fst snd].
    split; now apply distance_project.
  - intros Hout. apply Hbeyond.
    destruct (Nat.lt_ge_cases (length track_coords) 2) as [Hshort | Hlen].
    + left. unfold generate_corridor_for_continuous_track.
      destruct (Nat.ltb_spec (length track_coords) 2); [|lia].
      simpl. lia.
    + destruct (Hlens Hlen) as [-> _]. left. lia.
Qed.

Lemma index_marker_joins_corridor_witness :
  exists left_point right_point,
    nth_error
      (fst (generate_corridor_for_continuous_track
              [origin; one_degree_north] 300)) 1
    = Some left_point
    /\ nth_error
         (snd (generate_corridor_for_continuous_track
                 [origin; one_degree_north] 300)) 1
       = Some right_point
    /\ create_perpendicular_marker [origin; one_degree_north]
         (fst (generate_corridor_for_continuous_track
                 [origin; one_degree_north] 300))
         (snd (generate_corridor_for_continuous_track
                 [origin; one_degree_north] 300))
         1
       = [left_point; right_point]
    /\ calculate_distance one_degree_north left_point = 300
    /\ calculate_distance one_degree_north right_point = 300.
Proof.
  destruct (index_marker_joins_corridor [origin; one_degree_north] 300 1)
    as (_ & _ & Hjoin & _).
  destruct Hjoin as (left_point & right_point & El & Er & Hmarker & Hd).
  - simpl. lia.
  - simpl. lia.
  - exists left_point, right_point.
    split; [exact El|]. split; [exact Er|]. split; [exact Hmarker|].
    apply Hd.
    + cbn [nth]. unfold valid_lat, one_degree_north. cbn [fst snd]. lra.
    + pose proof half_circle_large. unfold earth_radius in *. lra.
Defined.



(** X15: a reference point gets no marker exactly when the track is
    empty or the point resolves to the last track position; a marker
    that is built is a line of two points. *)
Theorem marker_after_none_iff
    (continuous_track : list Coordinate) (ref_coord : Coordinate)
    (target_distance corridor_distance : R) :
  (marker_after continuous_track ref_coord target_distance
     corridor_distance = None
   <-> continuous_track = []
       \/ find_point_on_track continuous_track ref_coord
          = Some (length continuous_track - 1)%nat)
  /\ (forall marker_line,
         marker_after continuous_track ref_coord target_distance
           corridor_distance = Some marker_line ->
         length marker_line = 2%nat).
Proof.
  unfold marker_after.
  destruct (find_point_on_track continuous_track ref_coord) as [idx|] eqn:E.
  - pose proof (find_point_on_track_in_range _ _ _ E) as Hidx.
    destruct (point_at_distance_along_track continuous_track idx
                target_distance) as [[exact_point local_bearing]|] eqn:Ep.
    + split; [|intros line H; injection H as <-; reflexivity].
      split; [discriminate|].
      intros [-> | H]; [discriminate|]. injection H as ->.
      assert (Hnone : point_at_distance_along_track continuous_track
                        (length continuous_track - 1) target_distance
                      = None) by (apply point_at_none; lia).
      congruence.
    + split; [|discriminate].
      split; [|reflexivity]. intros _. right. f_equal.
      apply point_at_none in Ep. lia.
  - split; [|discriminate].
    split; [|reflexivity]. intros _. left.
    destruct continuous_track; [reflexivity | discriminate].
Qed.

Lemma marker_after_none_iff_witness :
  marker_after [origin; north_of_origin 100] (north_of_origin 100) 1852 300
  = None.
Proof.
  apply (proj1 (marker_after_none_iff [origin; north_of_origin 100]
                  (north_of_origin 100) 1852 300)).
  right. unfold find_point_on_track, closest_from, below.
  rewrite (distance_north_of_origin 100), calculate_distance_same by lra.
  destruct (Rlt_dec 0 100); [reflexivity | lra].
Defined.

Lemma marker_after_length (track : list Coordinate) (ref_coord : Coordinate)
    (target d : R) (line : list Coordinate) :
  marker_after track ref_coord target d = Some line ->
  length line = 2%nat.
Proof.
  unfold marker_after.
  destruct (find_point_on_track track ref_coord); [|discriminate].
  destruct (point_at_distance_along_track track _ target) as [[pt b]|];
    [|discriminate].
  intros H. injection H as <-. reflexivity.
Qed.

Lemma collect_reference_points_count (placemarks : list Placemark)
    (sp_coord : option Coordinate) (tp_coords : list (string * Coordinate))
    (found : option Coordinate * list (string * Coordinate)) :
  collect_reference_points placemarks sp_coord tp_coords = Some found ->
  (length (snd found) + found_sp (fst found)
   <= length tp_coords + found_sp sp_coord + length placemarks)%nat.
Proof.
  revert sp_coord tp_coords.
  induction placemarks as [|placemark rest IH];
    intros sp_coord tp_coords Hfound.
  - injection Hfound as <-. simpl. lia.
  - simpl in Hfound. simpl length.
    destruct (pm_point placemark) as [[|coord others]|];
      try (specialize (IH sp_coord tp_coords Hfound); lia).
    destruct (match pm_name_element placemark with
              | Some text => text
              | None => Some EmptyString
              end) as [text|]; [|discriminate].
    destruct (text =? "SP")%string.
    + specialize (IH (Some coord) tp_coords Hfound).
      destruct sp_coord; simpl found_sp in *; lia.
    + destruct (prefix "TP " text).
      * specialize (IH sp_coord _ Hfound).
        rewrite length_app in IH. simpl length in IH. lia.
      * specialize (IH sp_coord tp_coords Hfound). lia.
Qed.

Lemma tp_markers_shape (track : list Coordinate) (d : R)
    (tps : list (string * Coordinate)) :
  Forall (fun tp => prefix "TP " (fst tp) = true) tps ->
  (length (flat_map (tp_marker track d) tps) <= length tps)%nat
  /\ Forall (fun m : Marker =>
               length (snd m) = 2%nat
               /\ exists tp_name,
                    prefix "TP " tp_name = true
                    /\ fst m = ("1NM after " ++ tp_name)%string)
            (flat_map (tp_marker track d) tps).
Proof.
  induction 1 as [|[tp_name tp_coord] rest Hname _ IH].
  - split; [simpl; lia | constructor].
  - destruct IH as [Hcount Hshape]. simpl flat_map.
    change (tp_marker track d (tp_name, tp_coord))
      with (match marker_after track tp_coord nautical_mile d with
            | None => []
            | Some marker_line =>
                [(("1NM after " ++ tp_name)%string, marker_line)]
            end : list Marker).
    destruct (marker_after track tp_coord nautical_mile d) as [line|] eqn:E.
    + split; [simpl; lia|]. simpl app. constructor; [|exact Hshape].
      split; [exact (marker_after_length _ _ _ _ _ E)|].
      now exists tp_name.
    + split; [simpl; lia | exact Hshape].
Qed.

Lemma distance_markers_lines
    (continuous_track : list Coordinate) (placemarks : list Placemark)
    (corridor_distance : R) :
  (length (distance_markers continuous_track placemarks corridor_distance)
   <= length placemarks)%nat
  /\ Forall (fun m : Marker =>
               length (snd m) = 2%nat
               /\ (fst m = "5NM after SP"%string
                   \/ exists tp_name,
                        prefix "TP " tp_name = true
                        /\ fst m = ("1NM after " ++ tp_name)%string))
            (distance_markers continuous_track placemarks corridor_distance).
Proof.
  unfold distance_markers.
  destruct continuous_track as [|c track']; [split; [simpl; lia | constructor]|].
  set (track := c :: track').
  destruct (collect_reference_points placemarks None [])
    as [[sp_coord tp_coords]|] eqn:Efound;
    [|split; [simpl; lia | constructor]].
  pose proof (collect_reference_points_count placemarks None []
                (sp_coord, tp_coords) Efound) as Hcount.
  pose proof (collected_names_TP placemarks None [] (sp_coord, tp_coords)
                (Forall_nil _) Efound) as Hnames.
  cbn [fst snd length found_sp] in Hcount, Hnames. cbv zeta.
  assert (Hsorted : Forall (fun tp => prefix "TP " (fst tp) = true)
                           (py_sorted tp_key tp_coords)).
  { eapply Permutation_Forall; [apply py_sorted_perm | exact Hnames]. }
  destruct (tp_markers_shape track corridor_distance _ Hsorted)
    as [Htp_count Htp_shape].
  assert (Hlen : length (py_sorted tp_key tp_coords) = length tp_coords).
  { symmetry. apply Permutation_length, py_sorted_perm. }
  assert (Htp_shape' :
            Forall (fun m : Marker =>
                      length (snd m) = 2%nat
                      /\ (fst m = "5NM after SP"%string
                          \/ exists tp_name,
                               prefix "TP " tp_name = true
                               /\ fst m = ("1NM after " ++ tp_name)%string))
                   (flat_map (tp_marker track corridor_distance)
                             (py_sorted tp_key tp_coords))).
  { eapply Forall_impl; [|exact Htp_shape]. intros m [H2 Hn]. auto. }
  destruct sp_coord as [sp|]; cbn [found_sp] in Hcount; unfold Marker in *.
  - destruct (marker_after track sp (5 * nautical_mile) corridor_distance)
      as [line|] eqn:E.
    + split; [rewrite length_app; cbn [length]; lia|].
      apply Forall_app. split; [|exact Htp_shape'].
      constructor; [|constructor].
      split; [exact (marker_after_length _ _ _ _ _ E) | now left].
    + split; [cbn [app]; lia | exact Htp_shape'].
  - split; [cbn [app]; lia | exact Htp_shape'].
Qed.

(** X16: the markers added for a document are lines of two points; there
    is at most one for each placemark of the document; each is named
    "5NM after SP", or "1NM after" followed by the name of a turning
    point, a name that starts with "TP ". *)
Theorem distance_markers_shape
    (continuous_track : list Coordinate) (placemarks : list Placemark)
    (corridor_distance : R) :
  (length (distance_markers continuous_track placemarks corridor_distance)
   <= length placemarks)%nat
  /\ Forall (fun m : Marker =>
               length (snd m) = 2%nat
               /\ (fst m = "5NM after SP"%string
                   \/ exists tp_name,
                        prefix "TP " tp_name = true
                        /\ fst m = ("1NM after " ++ tp_name)%string))
            (distance_markers continuous_track placemarks corridor_distance).
Proof.
  apply distance_markers_lines.
Qed.

(** ** The track builder *)

(** X17: the builder fails (with the [IndexError] of [detailed_track[-1]]
    or [coords[0]]) exactly when it is given at least two segments and
    one of them has no coordinates; a single segment and segments that
    all have a coordinate are always stitched. *)
Theorem build_track_fails_iff (main_segments : list Segment) :
  build_detailed_continuous_track main_segments = None
  <-> (2 <= length main_segments)%nat
      /\ Exists no_coordinates main_segments.
Proof.
  apply build_fails_iff.
Qed.

Lemma build_some_bounds (main_segments : list Segment)
    (track : list Coordinate) :
  build_detailed_continuous_track main_segments = Some track ->
  (length track <= total_coordinates main_segments)%nat
  /\ (total_coordinates main_segments
      <= length track + (length main_segments - 1))%nat
  /\ forall c, In c track ->
               exists s, In s main_segments /\ In c (coordinates s).
Proof.
  rewrite build_unfold.
  pose proof (py_sorted_perm segment_key main_segments) as Hperm.
  rewrite (Permutation_length Hperm), (total_coordinates_perm _ _ Hperm).
  assert (Hback : forall s, In s (py_sorted segment_key main_segments) ->
                            In s main_segments).
  { intros s. apply Permutation_in. now apply Permutation_sym. }
  destruct (py_sorted segment_key main_segments) as [|s0 rest].
  - intros H. injection H as <-. unfold total_coordinates. simpl.
    split; [lia|]. split; [lia|]. intros c [].
  - rewrite stitch_from_start. destruct rest as [|s1 rest].
    + intros H. injection H as <-. unfold total_coordinates. simpl.
      split; [lia|]. split; [lia|].
      intros c Hc. exists s0. split; [apply Hback; now left | assumption].
    + intros Hsome.
      destruct (coordinates s0) as [|a0 front] eqn:E0; [discriminate|].
      destruct (stitch_from_later (s1 :: rest) 1 (a0 :: front))
        as [Hfail Hok]; [lia | discriminate |].
      destruct (Exists_dec no_coordinates (s1 :: rest) no_coordinates_dec)
        as [Hex | Hno]; [rewrite (Hfail Hex) in Hsome; discriminate|].
      destruct (Hok Hno) as (t & Et & _ & Hlo & Hhi & Hin).
      rewrite Et in Hsome. injection Hsome as <-.
      rewrite total_coordinates_cons, E0. simpl length in *.
      split; [lia|]. split; [lia|].
      intros c Hc. destruct (Hin c Hc) as [Hc0 | (s & Hs & Hcs)].
      * exists s0. split; [apply Hback; now left | now rewrite E0].
      * exists s. split; [apply Hback; now right | assumption].
Qed.

(** X18: a track that is built holds coordinates of the segments only,
    at most all of them, and at least all but one for each segment after
    the first (the first coordinates that are dropped at a junction). *)
Theorem build_track_accounts_for_points
    (main_segments : list Segment) (track : list Coordinate) :
  build_detailed_continuous_track main_segments = Some track ->
  (length track <= total_coordinates main_segments)%nat
  /\ (total_coordinates main_segments
      <= length track + (length main_segments - 1))%nat
  /\ forall c, In c track ->
               exists s, In s main_segments /\ In c (coordinates s).
Proof.
  apply build_some_bounds.
Qed.

Lemma build_track_accounts_for_points_witness :
  (length [origin; origin; north_of_origin 100] <= 4)%nat
  /\ (4 <= length [origin; origin; north_of_origin 100] + 1)%nat.
Proof.
  destruct (build_track_accounts_for_points
              [mkSegment 1 (Some "leg 2"%string) [origin; north_of_origin 100] 2;
               mkSegment 0 (Some "leg 1"%string) [origin; origin] 2]
              [origin; origin; north_of_origin 100])
    as (Hhi & Hlo & _).
  - unfold build_detailed_continuous_track.
    change (py_sorted segment_key _)
      with [mkSegment 0 (Some "leg 1"%string) [origin; origin] 2;
            mkSegment 1 (Some "leg 2"%string) [origin; north_of_origin 100] 2].
    cbn [stitch_from stitch_segment Nat.eqb coordinates app last_item last].
    rewrite calculate_distance_same.
    destruct (Rlt_dec 0 50); [reflexivity | lra].
  - split; [exact Hhi | exact Hlo].
Defined.

(** ** Extraction and classification of the segments *)

Lemma extract_segments_origin (placemarks : list Placemark) (i : nat)
    (s : Segment) :
  In s (extract_segments i placemarks) ->
  (i <= index s)%nat
  /\ exists placemark,
       nth_error placemarks (index s - i) = Some placemark
       /\ pm_linestring placemark = Some (coordinates s)
       /\ length (coordinates s) <> 3%nat
       /\ coord_count s = length (coordinates s).
Proof.
  revert i. induction placemarks as [|placemark rest IH]; intros i Hin;
    [contradiction|].
  assert (Hrest : In s (extract_segments (S i) rest) ->
            (i <= index s)%nat
            /\ exists pm,
                 nth_error (placemark :: rest) (index s - i) = Some pm
                 /\ pm_linestring pm = Some (coordinates s)
                 /\ length (coordinates s) <> 3%nat
                 /\ coord_count s = length (coordinates s)).
  { intros H. destruct (IH (S i) H) as (Hle & pm & Hnth & Hpm).
    split; [lia|]. exists pm. split; [|exact Hpm].
    replace (index s - i)%nat with (S (index s - S i)) by lia.
    exact Hnth. }
  simpl in Hin.
  destruct (pm_linestring placemark) as [coords|] eqn:E; [|now apply Hrest].
  destruct (Nat.eqb_spec (length coords) 3) as [H3 | H3];
    [now apply Hrest|].
  destruct Hin as [<- | Hin]; [|now apply Hrest].
  simpl. split; [lia|]. exists placemark.
  rewrite Nat.sub_diag. repeat split; assumption.
Qed.

(** X19: every segment that is extracted stands for a LineString of the
    document: its origin index is the position of a placemark, its
    coordinates are those of the LineString of that placemark, it does
    not have exactly three coordinates, and its ['coord_count'] is the
    number of its coordinates. *)
Theorem extracted_segment_origin (placemarks : list Placemark)
    (s : Segment) :
  In s (all_segments placemarks) ->
  exists placemark,
    nth_error placemarks (index s) = Some placemark
    /\ pm_linestring placemark = Some (coordinates s)
    /\ length (coordinates s) <> 3%nat
    /\ coord_count s = length (coordinates s).
Proof.
  intros Hin.
  destruct (extract_segments_origin placemarks 0 s Hin)
    as (_ & placemark & Hnth & Hrest).
  rewrite Nat.sub_0_r in Hnth. now exists placemark.
Qed.

Lemma extracted_segment_origin_witness :
  exists placemark,
    nth_error [mkPlacemark (Some (Some "SP"%string)) None (Some [origin]);
               mkPlacemark None (Some [origin; one_degree_north]) None]
              1
    = Some placemark
    /\ pm_linestring placemark = Some [origin; one_degree_north].
Proof.
  destruct (extracted_segment_origin
              [mkPlacemark (Some (Some "SP"%string)) None (Some [origin]);
               mkPlacemark None (Some [origin; one_degree_north]) None]
              (mkSegment 1 (Some "Unnamed_1"%string) [origin; one_degree_north] 2))
    as (placemark & Hnth & Hline & _).
  - left. reflexivity.
  - now exists placemark.
Defined.

Lemma extract_segments_sorted (placemarks : list Placemark) (i : nat) :
  StronglySorted (key_le segment_key) (extract_segments i placemarks).
Proof.
  revert i. induction placemarks as [|placemark rest IH]; intros i; simpl.
  - constructor.
  - destruct (pm_linestring placemark) as [coords|]; [|apply IH].
    destruct (length coords =? 3)%nat; [apply IH|].
    constructor; [apply IH|].
    eapply Forall_impl; [|apply (extract_segments_lower_bound rest (S i))].
    intros s Hs. cbv beta in Hs. unfold key_le, segment_key.
    cbn [index]. lia.
Qed.

Lemma filter_sorted {A : Type} (R : A -> A -> Prop) (f : A -> bool)
    (l : list A) :
  StronglySorted R l -> StronglySorted R (filter f l).
Proof.
  induction 1 as [|x l Hs IH Hall]; simpl; [constructor|].
  destruct (f x); [|exact IH].
  constructor; [exact IH|].
  rewrite Forall_forall in *. intros y Hy.
  apply filter_In in Hy as [Hy _]. now apply Hall.
Qed.

(** X20: the main-track segments of a document come out of the
    extraction in ascending order of their origin index, so the sort of
    the builder leaves them as they are: the track is stitched in the
    order of the document. *)
Theorem main_track_segments_in_document_order (placemarks : list Placemark) :
  py_sorted segment_key (main_track_segments placemarks)
  = main_track_segments placemarks
  /\ build_detailed_continuous_track (main_track_segments placemarks)
     = stitch_from 0 (main_track_segments placemarks) [].
Proof.
  assert (Hsorted : py_sorted segment_key (main_track_segments placemarks)
                    = main_track_segments placemarks).
  { apply py_sorted_of_sorted. unfold main_track_segments, all_segments.
    apply filter_sorted, extract_segments_sorted. }
  split; [exact Hsorted|].
  rewrite build_unfold. now rewrite Hsorted.
Qed.

Lemma filter_partition_perm {A : Type} (f : A -> bool) (l : list A) :
  Permutation l (filter (fun x => negb (f x)) l ++ filter f l).
Proof.
  induction l as [|x l IH]; simpl; [constructor|].
  destruct (f x); simpl.
  - now apply Permutation_cons_app.
  - now constructor.
Qed.

(** X21: the classification splits the extracted segments in two: each
    is a main-track segment or a dashed connector, never both; a dashed
    connector has exactly two coordinates, less than 500 m apart, so its
    first and its last coordinate can be read. *)
Theorem classification_partitions_segments (placemarks : list Placemark) :
  Permutation (all_segments placemarks)
              (main_track_segments placemarks ++ dashed_connectors placemarks)
  /\ (forall s, In s (main_track_segments placemarks) ->
                ~ In s (dashed_connectors placemarks))
  /\ (forall s, In s (dashed_connectors placemarks) ->
                exists c0 c1,
                  coordinates s = [c0; c1]
                  /\ calculate_distance c0 c1 < 500).
Proof.
  unfold main_track_segments, dashed_connectors.
  split; [apply filter_partition_perm|]. split.
  - intros s Hmain Hdashed.
    apply filter_In in Hmain as [_ Hmain].
    apply filter_In in Hdashed as [_ Hdashed].
    rewrite Hdashed in Hmain. discriminate.
  - intros s Hdashed. apply filter_In in Hdashed as [_ Hdashed].
    destruct (coordinates s) as [|c0 [|c1 [|c2 rest]]] eqn:E;
      try (rewrite is_dashed_other_count in Hdashed
             by (rewrite E; simpl; lia); discriminate).
    exists c0, c1. split; [reflexivity|].
    rewrite (is_dashed_two_points _ _ _ E) in Hdashed.
    destruct (Rlt_dec (calculate_distance c0 c1) 500);
      [assumption | discriminate].
Qed.

Lemma classification_partitions_segments_witness :
  exists c0 c1,
    [origin; origin] = [c0; c1] /\ calculate_distance c0 c1 < 500.
Proof.
  destruct (classification_partitions_segments
              [mkPlacemark None (Some [origin; origin]) None])
    as (_ & _ & Hdashed).
  apply (Hdashed (mkSegment 0 (Some (unnamed 0)) [origin; origin] 2)).
  unfold dashed_connectors, all_segments.
  cbn [extract_segments pm_linestring pm_name_element length Nat.eqb filter].
  rewrite (is_dashed_two_points
             (mkSegment 0 (Some (unnamed 0)) [origin; origin] 2) origin origin)
    by reflexivity.
  rewrite calculate_distance_same.
  destruct (Rlt_dec 0 500); [now left | lra].
Defined.

(** ** Reference points *)





(** X23: a turning point named "TP" and the decimal numeral of [n] has
    the sort key [n]; more generally the key of "TP" and a word of
    digits is the number those digits write. *)
Theorem tp_key_of_numbered_name (n : nat) (digits : string)
    (c : Coordinate) :
  tp_key (("TP " ++ NilEmpty.string_of_uint (Nat.to_uint n))%string, c)
  = Z.of_nat n
  /\ (isdigit digits = true ->
      tp_key (("TP " ++ digits)%string, c) = int digits).
Proof.
  split; [apply tp_key_of_decimal | apply tp_key_of_digits].
Qed.

Lemma tp_key_of_numbered_name_witness :
  tp_key ("TP 042"%string, origin) = int "042".
Proof.
  apply (proj2 (tp_key_of_numbered_name 0 "042" origin)). reflexivity.
Defined.

(** X24: a reference point that is a point of the track resolves to a
    track position at distance 0 from it, the first such position: no
    later than the point's own. *)
Theorem find_point_on_track_of_track_point
    (track_coords : list Coordinate) (k : nat) (p : Coordinate) :
  nth_error track_coords k = Some p ->
  exists i,
    find_point_on_track track_coords p = Some i
    /\ (i <= k)%nat
    /\ calculate_distance (nth i track_coords origin) p = 0.
Proof.
  intros Hk.
  assert (Hlen : (k < length track_coords)%nat)
    by (apply nth_error_Some; congruence).
  destruct track_coords as [|c rest]; [simpl in Hlen; lia|].
  pose proof (closest_from_first_minimum c rest p)
    as (Hi & Hmin & Hfirst).
  set (i := closest_from 0 (c :: rest) p Infinity 0) in *.
  assert (Hzero : calculate_distance (nth k (c :: rest) origin) p = 0).
  { rewrite (nth_error_nth _ _ origin Hk). apply calculate_distance_same. }
  exists i. split; [reflexivity|].
  pose proof (calculate_distance_nonneg (nth i (c :: rest) origin) p).
  pose proof (Hmin k Hlen).
  split; [|lra].
  apply Nat.nlt_ge. intros Hlt. specialize (Hfirst k Hlt). lra.
Qed.

Lemma find_point_on_track_of_track_point_witness :
  exists i,
    find_point_on_track [origin; one_degree_north; origin] origin = Some i
    /\ (i <= 2)%nat
    /\ calculate_distance
         (nth i [origin; one_degree_north; origin] origin) origin = 0.
Proof.
  apply find_point_on_track_of_track_point. reflexivity.
Defined.

(** ** The whole run *)






Lemma walk_legs_result (track : list Coordinate) (legs : list nat)
    (remaining : R) (point : Coordinate) (bearing : R) :
  walk_legs track legs remaining = Some (point, bearing) ->
  valid_lat point /\ 0 <= bearing < 360.
Proof.
  revert remaining. induction legs as [|i rest IH]; intros remaining;
    [discriminate|].
  simpl. destruct (Rle_dec remaining _); [|apply IH].
  intros H. injection H as <- <-.
  split; [apply projected_valid_lat | apply calculate_bearing_range].
Qed.

Lemma point_at_result (track : list Coordinate) (start : nat) (target : R)
    (point : Coordinate) (bearing : R) :
  Forall valid_lat track ->
  point_at_distance_along_track track start target = Some (point, bearing) ->
  valid_lat point /\ 0 <= bearing < 360.
Proof.
  intros Hvalid. unfold point_at_distance_along_track.
  destruct (Z.geb_spec (Z.of_nat start) (Z.of_nat (length track) - 1));
    [discriminate|].
  destruct (walk_legs track _ target) as [[pt b]|] eqn:E.
  - intros Hs. injection Hs as <- <-. exact (walk_legs_result _ _ _ _ _ E).
  - destruct (2 <=? length track)%nat; intros Hs; injection Hs as <- <-;
      (split; [now apply valid_lat_nth|]);
      [apply calculate_bearing_range | lra].
Qed.

(** X26: a marker that is built for a reference point lies across the
    track at the located point: the reference point resolves to a track
    position, the locator finds a point and a bearing in [0, 360) from
    there, and the two ends of the marker are each at the corridor
    distance from that point; for a track of coordinates with a latitude
    and a corridor distance between 0 and half a great circle. *)
Theorem marker_after_across_located_point
    (continuous_track : list Coordinate) (ref_coord : Coordinate)
    (target_distance corridor_distance : R) (marker_line : list Coordinate) :
  Forall valid_lat continuous_track ->
  0 <= corridor_distance <= PI * earth_radius ->
  marker_after continuous_track ref_coord target_distance corridor_distance
  = Some marker_line ->
  exists track_index exact_point local_bearing left_point right_point,
    find_point_on_track continuous_track ref_coord = Some track_index
    /\ point_at_distance_along_track continuous_track track_index
         target_distance = Some (exact_point, local_bearing)
    /\ marker_line = [left_point; right_point]
    /\ calculate_distance exact_point left_point = corridor_distance
    /\ calculate_distance exact_point right_point = corridor_distance
    /\ 0 <= local_bearing < 360.
Proof.
  intros Hvalid Hd. unfold marker_after.
  destruct (find_point_on_track continuous_track ref_coord) as [idx|];
    [|discriminate].
  destruct (point_at_distance_along_track continuous_track idx
              target_distance) as [[pt b]|] eqn:E; [|discriminate].
  intros H. injection H as <-.
  destruct (point_at_result _ _ _ _ _ Hvalid E) as [Hpt Hb].
  exists idx, pt, b. eexists. eexists.
  split; [reflexivity|]. split; [exact E|]. split; [reflexivity|].
  rewrite !distance_project by assumption. auto.
Qed.

Lemma marker_after_across_located_point_witness :
  exists track_index exact_point local_bearing left_point right_point,
    find_point_on_track [origin; north_of_origin 1000] origin
    = Some track_index
    /\ point_at_distance_along_track [origin; north_of_origin 1000]
         track_index 500 = Some (exact_point, local_bearing)
    /\ calculate_distance exact_point left_point = 300
    /\ calculate_distance exact_point right_point = 300.
Proof.
  assert (Hfind : find_point_on_track [origin; north_of_origin 1000] origin
                  = Some 0%nat).
  { unfold find_point_on_track, closest_from, below.
    rewrite calculate_distance_same.
    rewrite calculate_distance_symmetric_aux,
      (distance_north_of_origin 1000) by lra.
    destruct (Rlt_dec 1000 0); [lra | reflexivity]. }
  assert (Hat : point_at_distance_along_track
                  [origin; north_of_origin 1000] 0 500
                = Some (project_coordinate origin
                          (calculate_bearing origin (north_of_origin 1000))
                          500,
                        calculate_bearing origin (north_of_origin 1000))).
  { unfold point_at_distance_along_track.
    cbn [length Z.of_nat Z.geb Z.sub Z.compare Pos.of_succ_nat Pos.succ
         Z.add Z.opp Z.pos_sub Pos.pred_double Z.succ_double Z.pred_double
         Z.double range Nat.sub seq walk_legs nth Nat.add].
    rewrite (distance_north_of_origin 1000) by lra.
    destruct (Rle_dec 500 1000); [reflexivity | lra]. }
  destruct (marker_after_across_located_point
              [origin; north_of_origin 1000] origin 500 300
              (create_perpendicular_marker_at_point
                 (project_coordinate origin
                    (calculate_bearing origin (north_of_origin 1000)) 500)
                 (calculate_bearing origin (north_of_origin 1000)) 300))
    as (i & pt & b & l & r & Hi & Hp & _ & Hl & Hr & _).
  - constructor; [apply valid_lat_origin|].
    constructor; [apply projected_valid_lat | constructor].
  - pose proof half_circle_large. unfold earth_radius in *. lra.
  - unfold marker_after. now rewrite Hfind, Hat.
  - exists i, pt, b, l, r. auto.
Defined.

(** X27: whatever the order in which the segments are given, the builder
    stitches them in ascending order of origin index, segments of equal
    index in the order given: the stitched sequence is a rearrangement
    of the given one, sorted by index, that keeps the relative order of
    the segments of each index. *)
Theorem build_track_stitches_by_index (main_segments : list Segment) :
  exists sorted_segments,
    build_detailed_continuous_track main_segments
    = stitch_from 0 sorted_segments []
    /\ Permutation main_segments sorted_segments
    /\ StronglySorted (fun a b => (index a <= index b)%nat) sorted_segments
    /\ forall i,
         filter (fun s => (index s =? i)%nat) sorted_segments
         = filter (fun s => (index s =? i)%nat) main_segments.
Proof.
  exists (py_sorted segment_key main_segments).
  split; [apply build_unfold|].
  split; [apply py_sorted_perm|].
  split; [apply sorted_by_index, py_sorted_sorted|].
  intros i.
  pose proof (py_sorted_stable segment_key (Z.of_nat i) main_segments)
    as Hstable.
  assert (Hsame : forall l,
            filter (fun s => (segment_key s =? Z.of_nat i)%Z) l
            = filter (fun s => (index s =? i)%nat) l).
  { intros l. apply filter_ext. intros s. unfold segment_key.
    destruct (Nat.eqb_spec (index s) i) as [-> | Hne].
    - apply Z.eqb_refl.
    - apply Z.eqb_neq. lia. }
  now rewrite <- !Hsame.
Qed.
